(** * Credential cache of auth0-spa-js: a shallow embedding

    The development follows [src/cache.ts] (cache keys, the cache
    manager, the two storage backends) and [src/api.ts] (the token
    exchange request builder).

    Conventions of the embedding:
    - JavaScript strings are [string]; a value that may be [undefined]
      is an [option], [None] standing for [undefined];
    - JavaScript numbers that hold epoch seconds or milliseconds are [Z];
    - an object that is stored by reference and assigned to is a cell of
      an explicit heap; [Promise]s are awaited one after the other, so
      asynchronous code is sequential code in a state and exception monad. *)

From Stdlib Require Import List String Ascii ZArith Lia Bool Arith Permutation.
Import ListNotations.
Open Scope string_scope.

(** ** JavaScript string primitives *)

Module JS.

(** [s.startsWith(p)]. *)
Fixpoint startsWith (p s : string) : bool :=
  match p, s with
  | EmptyString, _ => true
  | String _ _, EmptyString => false
  | String a p', String b s' => Ascii.eqb a b && startsWith p' s'
  end.

(** [s.includes(sub)]: [sub] occurs somewhere in [s]. *)
Fixpoint includes (sub s : string) : bool :=
  startsWith sub s ||
  match s with
  | EmptyString => false
  | String _ s' => includes sub s'
  end.

(** The last character of [s] is [c]. *)
Fixpoint endsWithChar (c : ascii) (s : string) : bool :=
  match s with
  | EmptyString => false
  | String d EmptyString => Ascii.eqb d c
  | String _ s' => endsWithChar c s'
  end.

(** [s.split(sep)] for a non-empty separator [sep]: the scan goes from
    left to right and cuts at every occurrence of [sep] that does not
    overlap the previous one.  [skip] counts the characters of a matched
    separator that are still to be dropped.  The result is never empty:
    [''.split(sep)] is [['']]. *)
Fixpoint split_from (sep : string) (skip : nat) (s : string) : list string :=
  match s with
  | EmptyString => [EmptyString]
  | String c s' =>
      match skip with
      | S n => split_from sep n s'
      | O =>
          if startsWith sep s
          then EmptyString :: split_from sep (String.length sep - 1) s'
          else match split_from sep 0 s' with
               | [] => [String c EmptyString]
               | h :: t => String c h :: t
               end
      end
  end.

Definition split (sep s : string) : list string := split_from sep 0 s.

(** [s.substring(n)]: [s] without its first [n] characters. *)
Fixpoint drop (n : nat) (s : string) : string :=
  match n, s with
  | O, _ => s
  | S _, EmptyString => EmptyString
  | S n', String _ s' => drop n' s'
  end.

(** [arr.includes(x)] on an array of strings. *)
Definition arr_includes (arr : list string) (x : string) : bool :=
  existsb (String.eqb x) arr.

(** [arr.join(sep)]. *)
Definition join (sep : string) (arr : list string) : string :=
  String.concat sep arr.

(** A string in a template literal: [undefined] prints as its name. *)
Definition template (v : option string) : string :=
  match v with
  | Some s => s
  | None => "undefined"
  end.

(** [ToBoolean] of a string that may be [undefined]: the empty string
    and [undefined] are falsy. *)
Definition truthy (v : option string) : bool :=
  match v with
  | Some EmptyString => false
  | Some _ => true
  | None => false
  end.

End JS.

(** ** Cache keys *)

Definition keyPrefix : string := "@@auth0spajs@@".
Definition DEFAULT_EXPIRY_ADJUSTMENT_SECONDS : Z := 0.

(** [interface CacheKeyData]. *)
Record CacheKeyData : Type := mkCacheKeyData {
  data_audience : string;
  data_scope : string;
  data_client_id : string
}.

(** [class CacheKey].  The class declares its fields as strings, but
    [fromKey] fills them from a destructured array, so every field but
    the first can be [undefined]. *)
Record CacheKey : Type := mkCacheKey {
  prefix : string;
  client_id : option string;
  audience : option string;
  scope : option string
}.

(** [new CacheKey(data, prefix)]. *)
Definition newCacheKey (data : CacheKeyData) (p : string) : CacheKey :=
  {| prefix := p;
     client_id := Some (data_client_id data);
     audience := Some (data_audience data);
     scope := Some (data_scope data) |}.

(** [new CacheKey(data)]: the prefix defaults to [keyPrefix]. *)
Definition newCacheKey_default (data : CacheKeyData) : CacheKey :=
  newCacheKey data keyPrefix.

(** [CacheKey.prototype.toKey]. *)
Definition toKey (k : CacheKey) : string :=
  prefix k ++ "::" ++ JS.template (client_id k) ++ "::" ++
  JS.template (audience k) ++ "::" ++ JS.template (scope k).

(** [CacheKey.fromKey]: the first four parts of [key.split('::')], the
    missing ones being [undefined]; further parts are dropped.  [split]
    yields at least one part, so the prefix is always a string and the
    constructor's default never applies. *)
Definition fromKey (key : string) : CacheKey :=
  let parts := JS.split "::" key in
  {| prefix := nth 0 parts EmptyString;
     client_id := nth_error parts 1;
     audience := nth_error parts 2;
     scope := nth_error parts 3 |}.

(** ** Exceptions *)

Inductive Exn : Type :=
| TypeError     (* a property read or a method call on [undefined] or [null] *)
| SyntaxError.  (* [JSON.parse] on a text that is not JSON *)

Inductive Result (A : Type) : Type :=
| Ok (a : A)
| Throw (e : Exn).
Arguments Ok {A} a.
Arguments Throw {A} e.

(** ** The lookup shared by both backends *)

(** [a === b] on strings that may be [undefined]. *)
Definition strict_eq (a b : option string) : bool :=
  match a, b with
  | Some x, Some y => String.eqb x y
  | None, None => true
  | _, _ => false
  end.

(** [currentScopes && scope.split(' ').reduce(...)], as a truth value.
    [currentScopesArr] is [currentScopes.split(' ')] when [currentScopes]
    is truthy.  When [currentScopes] is falsy nothing to the right of
    [&&] is evaluated; when it is truthy, [scope.split] is called, which
    throws on an [undefined] scope. *)
Definition hasAllScopes (requested currentScopes : option string)
  : Result bool :=
  if JS.truthy currentScopes then
    match requested with
    | None => Throw TypeError
    | Some sc =>
        let currentScopesArr := JS.split " " (JS.template currentScopes) in
        Ok (fold_left
              (fun acc current => acc && JS.arr_includes currentScopesArr current)
              (JS.split " " sc) true)
    end
  else Ok false.

(** The callback given to [filter] in [findExistingCacheKey]. *)
Definition matchesCacheKey (cacheKey : CacheKey) (key : string) : Result bool :=
  let current := fromKey key in
  match hasAllScopes (scope cacheKey) (scope current) with
  | Throw e => Throw e
  | Ok has =>
      Ok (String.eqb (prefix current) keyPrefix &&
          strict_eq (client_id current) (client_id cacheKey) &&
          strict_eq (audience current) (audience cacheKey) &&
          has)
  end.

(** [arr.filter(f)] for a callback that can throw: the callback runs on
    every element, from left to right. *)
Fixpoint filterR {A : Type} (f : A -> Result bool) (l : list A)
  : Result (list A) :=
  match l with
  | [] => Ok []
  | x :: l' =>
      match f x with
      | Throw e => Throw e
      | Ok b =>
          match filterR f l' with
          | Throw e => Throw e
          | Ok r => Ok (if b then x :: r else r)
          end
      end
  end.

(** [findExistingCacheKey]: element [0] of the filtered array,
    [undefined] when the array is empty. *)
Definition findExistingCacheKey (cacheKey : CacheKey)
    (existingCacheKeys : list string) : Result (option string) :=
  match filterR (matchesCacheKey cacheKey) existingCacheKeys with
  | Throw e => Throw e
  | Ok r => Ok (hd_error r)
  end.

(** ** Ordered string-keyed tables

    [window.localStorage] and the object behind [InMemoryCache] both map
    strings to values and enumerate their keys in some order.  A table is
    the list of its bindings in enumeration order, without duplicate
    keys ([table_wf]).  The order is the order of insertion, as
    [Object.keys] has it for an object whose keys are not array indices
    (cache keys contain ["::"]); for [localStorage] the order is up to the
    browser, and the one assumption made is that removing a key leaves the
    other keys in their order. *)

Section Table.
Context {V : Type}.

Definition table_keys (t : list (string * V)) : list string := map fst t.

Definition table_wf (t : list (string * V)) : Prop := NoDup (table_keys t).

Fixpoint table_get (k : string) (t : list (string * V)) : option V :=
  match t with
  | [] => None
  | (k', v) :: t' => if String.eqb k k' then Some v else table_get k t'
  end.

(** An existing key keeps its place, a new key goes last. *)
Fixpoint table_set (k : string) (v : V) (t : list (string * V))
  : list (string * V) :=
  match t with
  | [] => [(k, v)]
  | (k', v') :: t' =>
      if String.eqb k k' then (k, v) :: t' else (k', v') :: table_set k v t'
  end.

Definition table_remove (k : string) (t : list (string * V))
  : list (string * V) :=
  filter (fun kv => negb (String.eqb k (fst kv))) t.
End Table.

(** ** Cache entries, the stores and the cache manager *)

Section Cache.

(** [IdToken] and [User] are declared in [./global]; the cache reads
    one thing from them, the [exp] claim of the ID token. *)
Context {IdToken User : Type}.
Variable claims_exp : IdToken -> Z.

(** [interface DecodedToken]. *)
Record DecodedToken : Type := mkDecodedToken {
  claims : IdToken;
  user : User
}.

(** [interface CacheEntry]. *)
Record CacheEntry : Type := mkCacheEntry {
  id_token : string;
  access_token : string;
  expires_in : Z;
  decodedToken : DecodedToken;
  entry_audience : string;
  entry_scope : string;
  entry_client_id : string;
  refresh_token : option string
}.

(** [Partial<CacheEntry>]: every property may be missing. *)
Record PartialCacheEntry : Type := mkPartial {
  p_id_token : option string;
  p_access_token : option string;
  p_expires_in : option Z;
  p_decodedToken : option DecodedToken;
  p_audience : option string;
  p_scope : option string;
  p_client_id : option string;
  p_refresh_token : option string
}.

(** A [CacheEntry] seen as a [Partial<CacheEntry>] (the same object). *)
Definition asPartial (e : CacheEntry) : PartialCacheEntry :=
  {| p_id_token := Some (id_token e);
     p_access_token := Some (access_token e);
     p_expires_in := Some (expires_in e);
     p_decodedToken := Some (decodedToken e);
     p_audience := Some (entry_audience e);
     p_scope := Some (entry_scope e);
     p_client_id := Some (entry_client_id e);
     p_refresh_token := refresh_token e |}.

(** The object literal [{ refresh_token: t }]. *)
Definition refreshOnly (t : option string) : PartialCacheEntry :=
  {| p_id_token := None;
     p_access_token := None;
     p_expires_in := None;
     p_decodedToken := None;
     p_audience := None;
     p_scope := None;
     p_client_id := None;
     p_refresh_token := t |}.

(** [type WrappedCacheEntry]. *)
Record WrappedCacheEntry : Type := mkWrapped {
  body : PartialCacheEntry;
  expiresAt : Z
}.

(** What [JSON.parse] makes of a stored text: it throws, or yields a
    falsy value ([null], [false], [0], the empty string), or yields an
    object, which the cache manager reads as a wrapped entry.  Texts of
    truthy values of another shape are not part of the model: on such a
    value [CacheManager.get] reads properties that can be missing, and no
    property below speaks about them. *)
Inductive Parsed : Type :=
| ParseError
| ParsedFalsy
| ParsedEntry (w : WrappedCacheEntry).

(** The built-ins [JSON.stringify] and [JSON.parse]. *)
Variable JSON_stringify : WrappedCacheEntry -> string.
Variable JSON_parse : string -> Parsed.

(** A reference to a wrapped-entry object: its index in the heap. *)
Definition ref : Type := nat.

(** The mutable state the cache code works on. *)
Record World : Type := mkWorld {
  heap : list WrappedCacheEntry;          (* the wrapped-entry objects *)
  localStorage : list (string * string);  (* [window.localStorage] *)
  cache : list (string * ref)             (* [cache] of [InMemoryCache] *)
}.

(** Computations: they read and write the world and may throw; what
    was written before a throw stays written. *)
Definition M (A : Type) : Type := World -> Result A * World.

Definition ret {A : Type} (a : A) : M A := fun w => (Ok a, w).

Definition bind {A B : Type} (m : M A) (f : A -> M B) : M B :=
  fun w =>
    match m w with
    | (Ok a, w') => f a w'
    | (Throw e, w') => (Throw e, w')
    end.

Definition throw {A : Type} (e : Exn) : M A := fun w => (Throw e, w).

Notation "x <- m ;; k" := (bind m (fun x => k))
  (at level 61, m at next level, right associativity).
Notation "m ;;; k" := (bind m (fun _ => k))
  (at level 61, right associativity).

(** *** Heap *)

(** A new object. *)
Definition alloc (o : WrappedCacheEntry) : M ref :=
  fun w => (Ok (List.length (heap w)),
            mkWorld (heap w ++ [o]) (localStorage w) (cache w)).

(** Reading an object; every reference the code holds was allocated,
    the [None] case is there for totality only. *)
Definition deref (r : ref) : M WrappedCacheEntry :=
  fun w =>
    match nth_error (heap w) r with
    | Some o => (Ok o, w)
    | None => (Throw TypeError, w)
    end.

Fixpoint update_nth {A : Type} (n : nat) (f : A -> A) (l : list A) : list A :=
  match l, n with
  | [], _ => []
  | x :: l', O => f x :: l'
  | x :: l', S n' => x :: update_nth n' f l'
  end.

(** The object [o] once [o.body = b] is done. *)
Definition with_body (b : PartialCacheEntry) (o : WrappedCacheEntry)
  : WrappedCacheEntry :=
  mkWrapped b (expiresAt o).

(** [o.body = b] on the object at [r]. *)
Definition assign_body (r : ref) (b : PartialCacheEntry) : M unit :=
  fun w => (Ok tt,
            mkWorld (update_nth r (with_body b) (heap w))
                    (localStorage w) (cache w)).

(** An expired entry that has a refresh token, once truncated. *)
Definition remnant (o : WrappedCacheEntry) : WrappedCacheEntry :=
  with_body (refreshOnly (p_refresh_token (body o))) o.

(** *** The storage interface *)

(** [interface ICache]; the values the cache manager stores and reads
    are references to wrapped-entry objects, [get] resolves to [null]
    ([None]) when there is nothing. *)
Record ICache : Type := mkICache {
  ic_set : string -> ref -> M unit;
  ic_get : string -> M (option ref);
  ic_remove : string -> M unit;
  ic_clear : M unit
}.

(** *** [class LocalStorageCache] *)

Definition with_localStorage (f : list (string * string) -> list (string * string))
  : M unit :=
  fun w => (Ok tt, mkWorld (heap w) (f (localStorage w)) (cache w)).

(** [window.localStorage.setItem(key, JSON.stringify(entry))]. *)
Definition LocalStorageCache_set (key : string) (entry : ref) : M unit :=
  o <- deref entry ;;
  with_localStorage (table_set key (JSON_stringify o)).

(** The end of [readJson], from [if (!json)] on: a truthy [json] is
    parsed, and a truthy [payload] is a new object. *)
Definition LocalStorageCache_payload (json : option string) : M (option ref) :=
  if negb (JS.truthy json) then ret None
  else
    match JSON_parse (JS.template json) with
    | ParseError => throw SyntaxError
    | ParsedFalsy => ret None
    | ParsedEntry payload => r <- alloc payload ;; ret (Some r)
    end.

(** [readJson]. *)
Definition LocalStorageCache_readJson (cacheKey : CacheKey) : M (option ref) :=
  fun w =>
    match findExistingCacheKey cacheKey (table_keys (localStorage w)) with
    | Throw e => (Throw e, w)
    | Ok existingCacheKey =>
        (* existingCacheKey && window.localStorage.getItem(existingCacheKey) *)
        let json :=
          if JS.truthy existingCacheKey
          then table_get (JS.template existingCacheKey) (localStorage w)
          else existingCacheKey in
        LocalStorageCache_payload json w
    end.

(** [get]: an exception in the executor rejects the promise, and the
    [await] of the caller rethrows it. *)
Definition LocalStorageCache_get (key : string) : M (option ref) :=
  let cacheKey := fromKey key in
  payload <- LocalStorageCache_readJson cacheKey ;;
  ret payload.

Definition LocalStorageCache_remove (key : string) : M unit :=
  with_localStorage (table_remove key).

(** The loop of [clear], [i] running from [n - 1] down to [0];
    [localStorage.key(i)] is [null] out of range, and [startsWith] on
    [null] throws. *)
Fixpoint LocalStorageCache_clear_loop (n : nat) : M unit :=
  match n with
  | O => ret tt
  | S i =>
      fun w =>
        match nth_error (table_keys (localStorage w)) i with
        | None => (Throw TypeError, w)
        | Some k =>
            if JS.startsWith keyPrefix k
            then (with_localStorage (table_remove k) ;;;
                  LocalStorageCache_clear_loop i) w
            else LocalStorageCache_clear_loop i w
        end
  end.

Definition LocalStorageCache_clear : M unit :=
  fun w => LocalStorageCache_clear_loop (List.length (localStorage w)) w.

Definition LocalStorageCache : ICache :=
  {| ic_set := LocalStorageCache_set;
     ic_get := LocalStorageCache_get;
     ic_remove := LocalStorageCache_remove;
     ic_clear := LocalStorageCache_clear |}.

(** *** [class InMemoryCache], its [enclosedCache] *)

Definition with_cache (f : list (string * ref) -> list (string * ref)) : M unit :=
  fun w => (Ok tt, mkWorld (heap w) (localStorage w) (f (cache w))).

(** [cache[key] = entry]. *)
Definition InMemoryCache_set (key : string) (entry : ref) : M unit :=
  with_cache (table_set key entry).

(** [get]: [cache[existingCacheKey]] with an [undefined] key reads the
    property named ["undefined"]. *)
Definition InMemoryCache_get (key : string) : M (option ref) :=
  fun w =>
    let cacheKey := fromKey key in
    match findExistingCacheKey cacheKey (table_keys (cache w)) with
    | Throw e => (Throw e, w)
    | Ok existingCacheKey =>
        let cacheEntry := table_get (JS.template existingCacheKey) (cache w) in
        (Ok cacheEntry, w)
    end.

(** [delete cache[key]]. *)
Definition InMemoryCache_remove (key : string) : M unit :=
  with_cache (table_remove key).

(** [cache = {}]. *)
Definition InMemoryCache_clear : M unit :=
  with_cache (fun _ => []).

Definition InMemoryCache : ICache :=
  {| ic_set := InMemoryCache_set;
     ic_get := InMemoryCache_get;
     ic_remove := InMemoryCache_remove;
     ic_clear := InMemoryCache_clear |}.

(** *** [class CacheManager] *)

(** [Math.floor(Date.now() / 1000)], [now] being [Date.now()]. *)
Definition nowSeconds (now : Z) : Z := (now / 1000)%Z.

(** [wrapCacheEntry]. *)
Definition wrapCacheEntry (now : Z) (entry : CacheEntry) : WrappedCacheEntry :=
  let expiresInTime := (nowSeconds now + expires_in entry)%Z in
  let expirySeconds :=
    Z.min expiresInTime (claims_exp (claims (decodedToken entry))) in
  {| body := asPartial entry; expiresAt := expirySeconds |}.

(** [CacheManager.get]; [now] is what [Date.now()] returns. *)
Definition CacheManager_get (this_cache : ICache) (now : Z)
    (cacheKey : CacheKey) (expiryAdjustmentSeconds : Z)
  : M (option PartialCacheEntry) :=
  let key := toKey cacheKey in
  wrappedEntry <- ic_get this_cache key ;;
  match wrappedEntry with
  | None => ret None
  | Some r =>
      o <- deref r ;;
      if (expiresAt o - expiryAdjustmentSeconds <? nowSeconds now)%Z then
        if JS.truthy (p_refresh_token (body o)) then
          assign_body r (refreshOnly (p_refresh_token (body o))) ;;;
          ic_set this_cache key r ;;;
          o' <- deref r ;;
          ret (Some (body o'))
        else
          ic_remove this_cache key ;;;
          ret None
      else ret (Some (body o))
  end.

(** [CacheManager.get] without its second argument. *)
Definition CacheManager_get_default (this_cache : ICache) (now : Z)
    (cacheKey : CacheKey) : M (option PartialCacheEntry) :=
  CacheManager_get this_cache now cacheKey DEFAULT_EXPIRY_ADJUSTMENT_SECONDS.

(** [CacheManager.set]. *)
Definition CacheManager_set (this_cache : ICache) (now : Z)
    (entry : CacheEntry) : M unit :=
  let cacheKey :=
    newCacheKey_default
      {| data_client_id := entry_client_id entry;
         data_scope := entry_scope entry;
         data_audience := entry_audience entry |} in
  wrappedEntry <- alloc (wrapCacheEntry now entry) ;;
  ic_set this_cache (toKey cacheKey) wrappedEntry.

(** [CacheManager.clear]. *)
Definition CacheManager_clear (this_cache : ICache) : M unit :=
  ic_clear this_cache.

(** The world with the binding of [k] taken out of both stores. *)
Definition without_key (k : string) (w : World) : World :=
  mkWorld (heap w) (table_remove k (localStorage w)) (table_remove k (cache w)).

(** The empty stores. *)
Definition empty_world : World := mkWorld [] [] [].

(** Every reference held by the ephemeral store is the index of an
    object. *)
Definition refs_valid (w : World) : Prop :=
  forall k r, table_get k (cache w) = Some r -> r < List.length (heap w).

(** The state of a running page: valid references, and distinct keys
    in both stores. *)
Definition world_ok (w : World) : Prop :=
  refs_valid w /\ table_wf (localStorage w) /\ table_wf (cache w).

End Cache.

(** ** The token exchange request builder ([src/api.ts]) *)

Section Api.

(** The object left in [...options] once the named properties are
    taken out (the grant parameters), the client metadata object, the
    worker and the promise that [getJSON] returns. *)
Context {GrantParams Auth0Client Worker Response : Type}.

(** [DEFAULT_AUTH0_CLIENT] and [DEFAULT_TOKEN_PATH] of [./constants]. *)
Variable DEFAULT_AUTH0_CLIENT : Auth0Client.
Variable DEFAULT_TOKEN_PATH : string.

(** [createQueryParams] of [./utils]; [JSON.stringify] at the two
    types it is used at; [btoa]. *)
Variable createQueryParams : GrantParams -> string.
Variable JSON_stringify_params : GrantParams -> string.
Variable JSON_stringify_client : Auth0Client -> string.
Variable btoa : string -> string.

(** The third argument of [getJSON]: [{ method, body, headers }];
    [headers] is an object used as a map, in insertion order. *)
Record FetchOptions : Type := mkFetchOptions {
  method : string;
  fetch_body : string;
  headers : list (string * string)
}.

(** [getJSON] of [./http]. *)
Variable getJSON :
  string -> option Z -> string -> string -> FetchOptions ->
  option Worker -> option bool -> Response.

(** [TokenEndpointOptions], as [oauthToken] destructures it. *)
Record TokenEndpointOptions : Type := mkTokenEndpointOptions {
  baseUrl : string;
  timeout : option Z;
  token_audience : option string;
  token_scope : string;
  auth0Client : option Auth0Client;
  useFormData : option bool;
  disableAuth0Client : option bool;
  tokenPath : option string;
  options : GrantParams
}.

(** [ToBoolean] of an optional boolean property. *)
Definition flag (b : option bool) : bool :=
  match b with
  | Some true => true
  | _ => false
  end.

(** [tokenPath = DEFAULT_TOKEN_PATH]: the default stands in for
    [undefined] only. *)
Definition tokenPath_or_default (o : TokenEndpointOptions) : string :=
  match tokenPath o with
  | Some p => p
  | None => DEFAULT_TOKEN_PATH
  end.

(** [auth0Client || DEFAULT_AUTH0_CLIENT]: an object is truthy. *)
Definition auth0Client_or_default (o : TokenEndpointOptions) : Auth0Client :=
  match auth0Client o with
  | Some c => c
  | None => DEFAULT_AUTH0_CLIENT
  end.

(** [const body = ...]. *)
Definition oauthToken_body (o : TokenEndpointOptions) : string :=
  if flag (useFormData o)
  then createQueryParams (options o)
  else JSON_stringify_params (options o).

(** [const headers = ...], then the conditional assignment. *)
Definition oauthToken_headers (o : TokenEndpointOptions) : list (string * string) :=
  let headers :=
    [("Content-Type",
      if flag (useFormData o)
      then "application/x-www-form-urlencoded"
      else "application/json")] in
  if negb (flag (disableAuth0Client o))
  then table_set "Auth0-Client"
         (btoa (JSON_stringify_client (auth0Client_or_default o))) headers
  else headers.

(** The request description handed to [getJSON]. *)
Definition oauthToken_request (o : TokenEndpointOptions) : FetchOptions :=
  {| method := "POST";
     fetch_body := oauthToken_body o;
     headers := oauthToken_headers o |}.

(** [`${baseUrl}/${tokenPath}`]. *)
Definition oauthToken_url (o : TokenEndpointOptions) : string :=
  baseUrl o ++ "/" ++ tokenPath_or_default o.

(** [oauthToken]. *)
Definition oauthToken (o : TokenEndpointOptions) (worker : option Worker)
  : Response :=
  getJSON (oauthToken_url o)
          (timeout o)
          (if JS.truthy (token_audience o)
           then JS.template (token_audience o) else "default")
          (token_scope o)
          (oauthToken_request o)
          worker
          (useFormData o).

End Api.

(** ** The lookup as the specification words it *)

Module Spec.

(** Blank characters: space, tab, line feed, vertical tab, form feed,
    carriage return. *)
Definition whitespace (c : ascii) : bool :=
  let n := nat_of_ascii c in
  Nat.eqb n 32 || (Nat.leb 9 n && Nat.leb n 13).

(** The scope set of a scope string, split on whitespace; [cur] is the
    token being read. *)
Fixpoint scope_set_from (cur s : string) : list string :=
  match s with
  | EmptyString => if String.eqb cur "" then [] else [cur]
  | String c s' =>
      if whitespace c
      then (if String.eqb cur "" then [] else [cur]) ++ scope_set_from "" s'
      else scope_set_from (cur ++ String c EmptyString) s'
  end.

Definition scope_set (s : option string) : list string :=
  match s with
  | Some s => scope_set_from "" s
  | None => []
  end.

(** A stored key serves a requested key: same namespace tag, same
    client and audience, and every requested scope token is among the
    stored ones. *)
Definition serves (requested : CacheKey) (stored : string) : bool :=
  let current := fromKey stored in
  String.eqb (prefix current) keyPrefix &&
  strict_eq (client_id current) (client_id requested) &&
  strict_eq (audience current) (audience requested) &&
  forallb (fun t => existsb (String.eqb t) (scope_set (scope current)))
          (scope_set (scope requested)).

(** The first stored key, in enumeration order, that serves the request. *)
Definition lookup (requested : CacheKey) (stored : list string) : option string :=
  find (serves requested) stored.

End Spec.

(** ** The lookup as the code decides it

    The stored scope is
    a non-empty string and, both scopes being cut at every single space
    (so that two spaces in a row, or an empty scope, give an empty
    token), every token of the requested scope is a token of the stored
    one. *)
Definition scope_covers (stored requested : string) : Prop :=
  stored <> "" /\
  forall t, In t (JS.split " " requested) -> In t (JS.split " " stored).

Definition Matches (c a : option string) (s : string) (key : string) : Prop :=
  prefix (fromKey key) = keyPrefix /\
  client_id (fromKey key) = c /\
  audience (fromKey key) = a /\
  exists stored, scope (fromKey key) = Some stored /\ scope_covers stored s.

(** The same, as tests. *)
Definition scope_coversb (stored requested : string) : bool :=
  negb (String.eqb stored "") &&
  forallb (fun t => JS.arr_includes (JS.split " " stored) t)
          (JS.split " " requested).

Definition matchesb (c a : option string) (s : string) (key : string) : bool :=
  let current := fromKey key in
  String.eqb (prefix current) keyPrefix &&
  strict_eq (client_id current) c &&
  strict_eq (audience current) a &&
  match scope current with
  | Some stored => scope_coversb stored s
  | None => false
  end.

(** [k] is the first element of [keys] with property [P]. *)
Definition first_such (P : string -> Prop) (keys : list string) (k : string) : Prop :=
  exists before after,
    keys = (before ++ k :: after)%list /\ P k /\ forall k', In k' before -> ~ P k'.

(** ** A concrete instance

    The ID token is its [exp] claim, the user profile is empty, and the
    JSON texts are those of one entry and of its remnant. *)

Module Example.

Definition entry : @CacheEntry Z unit :=
  {| id_token := "id";
     access_token := "at";
     expires_in := 3600;
     decodedToken := {| claims := 100%Z; user := tt |};
     entry_audience := "A1";
     entry_scope := "read write";
     entry_client_id := "C1";
     refresh_token := Some "rt" |}.

(** The same entry without a refresh token. *)
Definition entry_no_refresh : @CacheEntry Z unit :=
  {| id_token := "id";
     access_token := "at";
     expires_in := 3600;
     decodedToken := {| claims := 100%Z; user := tt |};
     entry_audience := "A1";
     entry_scope := "read write";
     entry_client_id := "C1";
     refresh_token := None |}.

Definition exp (t : Z) : Z := t.

(** Written at [Date.now() = 40000]: [expiresAt] is [min (40 + 3600) 100]. *)
Definition stored : @WrappedCacheEntry Z unit := wrapCacheEntry exp 40000 entry.
Definition stored_no_refresh : @WrappedCacheEntry Z unit :=
  wrapCacheEntry exp 40000 entry_no_refresh.

Definition stringify (o : @WrappedCacheEntry Z unit) : string :=
  match p_access_token (body o), p_refresh_token (body o) with
  | Some _, Some _ => "{entry}"
  | Some _, None => "{entry without refresh_token}"
  | None, _ => "{remnant}"
  end.

Definition parse (text : string) : @Parsed Z unit :=
  if String.eqb text "{entry}" then ParsedEntry stored
  else if String.eqb text "{entry without refresh_token}"
       then ParsedEntry stored_no_refresh
  else if String.eqb text "{remnant}" then ParsedEntry (remnant stored)
  else if String.eqb text "null" then ParsedFalsy
  else ParseError.

Definition LS : @ICache Z unit := LocalStorageCache stringify parse.
Definition Mem : @ICache Z unit := InMemoryCache.

(** The request for the entry's own key, and for a part of its scope. *)
Definition own_key : CacheKey :=
  mkCacheKey keyPrefix (Some "C1") (Some "A1") (Some "read write").
Definition read_key : CacheKey :=
  mkCacheKey keyPrefix (Some "C1") (Some "A1") (Some "read").

(** The stores once [entry] is set, at [Date.now() = 40000]. *)
Definition after_set_LS : @World Z unit :=
  snd (CacheManager_set exp LS 40000 entry empty_world).
Definition after_set_Mem : @World Z unit :=
  snd (CacheManager_set exp Mem 40000 entry empty_world).
Definition after_set_no_refresh_LS : @World Z unit :=
  snd (CacheManager_set exp LS 40000 entry_no_refresh empty_world).

End Example.

(** * Properties *)

(** ** Strings *)

Lemma startsWith_nil (s : string) : JS.startsWith "" s = true.
Proof. destruct s; reflexivity. Qed.

Lemma startsWith_cons (a b : ascii) (p s : string) :
  JS.startsWith (String a p) (String b s) = Ascii.eqb a b && JS.startsWith p s.
Proof. reflexivity. Qed.

Lemma startsWith_app (p rest : string) : JS.startsWith p (p ++ rest) = true.
Proof.
  induction p as [|c p IH].
  - apply startsWith_nil.
  - change (String c p ++ rest) with (String c (p ++ rest)).
    now rewrite startsWith_cons, Ascii.eqb_refl, IH.
Qed.

Lemma split_from_skip (sep x rest : string) :
  JS.split_from sep (String.length x) (x ++ rest) = JS.split_from sep 0 rest.
Proof.
  induction x as [|c x IH]; simpl; [reflexivity | exact IH].
Qed.

Lemma split_from_nonempty (sep : string) (n : nat) (s : string) :
  JS.split_from sep n s <> [].
Proof.
  revert n. induction s as [|c s IH]; intros n; cbn [JS.split_from].
  - easy.
  - destruct n as [|n]; [|apply IH].
    destruct (JS.startsWith sep (String c s)); [easy|].
    destruct (JS.split_from sep 0 s); easy.
Qed.

(** Cutting right after a separator. *)
Lemma split_sep_head (c : ascii) (sep' rest : string) :
  JS.split (String c sep') (String c sep' ++ rest)
  = "" :: JS.split (String c sep') rest.
Proof.
  unfold JS.split.
  change (String c sep' ++ rest) with (String c (sep' ++ rest)).
  cbn [JS.split_from].
  change (String c (sep' ++ rest)) with (String c sep' ++ rest).
  rewrite startsWith_app.
  cbn [String.length]. rewrite Nat.sub_1_r, Nat.pred_succ.
  now rewrite split_from_skip.
Qed.

(** One step of the scan over a character that starts no separator. *)
Lemma split_step (sep : string) (c : ascii) (s : string) :
  JS.startsWith sep (String c s) = false ->
  JS.split sep (String c s) =
  match JS.split sep s with
  | [] => [String c ""]
  | h :: t => String c h :: t
  end.
Proof. unfold JS.split. cbn [JS.split_from]. now intros ->. Qed.

(** A string without the separator is a single part. *)
Lemma split_none (sep s : string) :
  JS.includes sep s = false -> JS.split sep s = [s].
Proof.
  induction s as [|c s IH]; intros H.
  - reflexivity.
  - cbn [JS.includes] in H. apply orb_false_iff in H as [H1 H2].
    rewrite (split_step _ _ _ H1), (IH H2). reflexivity.
Qed.

(** Scope tokens: a token without a space, then a space. *)
Lemma split_space_cons (t rest : string) :
  JS.includes " " t = false ->
  JS.split " " (t ++ " " ++ rest) = t :: JS.split " " rest.
Proof.
  induction t as [|c t IH]; intros H.
  - apply (split_sep_head " "%char "" rest).
  - cbn [JS.includes] in H. apply orb_false_iff in H as [H1 H2].
    change (String c t ++ " " ++ rest) with (String c (t ++ " " ++ rest)).
    rewrite split_step.
    + now rewrite (IH H2).
    + rewrite startsWith_cons, startsWith_nil, andb_true_r in *. exact H1.
Qed.

(** Key parts: a part without ["::"] that does not end in a colon, then
    the delimiter. *)
Lemma split_delim_cons (p rest : string) :
  JS.includes "::" p = false ->
  JS.endsWithChar ":" p = false ->
  JS.split "::" (p ++ "::" ++ rest) = p :: JS.split "::" rest.
Proof.
  induction p as [|c p IH]; intros H E.
  - apply (split_sep_head ":"%char ":" rest).
  - cbn [JS.includes] in H. apply orb_false_iff in H as [H1 H2].
    change (String c p ++ "::" ++ rest) with (String c (p ++ "::" ++ rest)).
    rewrite split_step.
    + rewrite IH; [reflexivity | exact H2 |].
      destruct p; [reflexivity | exact E].
    + rewrite startsWith_cons in *.
      destruct (Ascii.eqb_spec ":" c) as [<-|]; [|reflexivity].
      rewrite andb_true_l in *.
      destruct p as [|d p].
      * discriminate E.
      * change (String d p ++ "::" ++ rest) with (String d (p ++ "::" ++ rest)).
        rewrite startsWith_cons, startsWith_nil, andb_true_r in *. exact H1.
Qed.

Lemma startsWith_drop (p s : string) :
  JS.startsWith p s = true -> s = p ++ JS.drop (String.length p) s.
Proof.
  revert s. induction p as [|a p IH]; intros [|b s] H; try reflexivity.
  - discriminate H.
  - rewrite startsWith_cons in H. apply andb_true_iff in H as [Hab Hp].
    apply Ascii.eqb_eq in Hab as ->. simpl. f_equal. now apply IH.
Qed.

Lemma concat_cons_nonempty (sep h : string) (l : list string) :
  l <> [] -> String.concat sep (h :: l) = h ++ sep ++ String.concat sep l.
Proof. destruct l; [congruence | reflexivity]. Qed.

Lemma concat_String (sep : string) (c : ascii) (h : string) (t : list string) :
  String.concat sep (String c h :: t) = String c (String.concat sep (h :: t)).
Proof. destruct t; reflexivity. Qed.

(** Joining the parts with the separator gives the string back. *)
Lemma join_split_from (c0 : ascii) (sep0 s : string) (n : nat) :
  JS.join (String c0 sep0) (JS.split_from (String c0 sep0) n s) = JS.drop n s.
Proof.
  unfold JS.join. revert n.
  induction s as [|c s IH]; intros n; cbn [JS.split_from].
  - destruct n; reflexivity.
  - destruct n as [|n]; [|exact (IH n)].
    destruct (JS.startsWith (String c0 sep0) (String c s)) eqn:E.
    + rewrite concat_cons_nonempty by apply split_from_nonempty.
      rewrite IH. cbn [String.length]. rewrite Nat.sub_1_r, Nat.pred_succ.
      rewrite startsWith_cons in E. apply andb_true_iff in E as [Ec Es].
      apply Ascii.eqb_eq in Ec as ->.
      rewrite (startsWith_drop _ _ Es) at 2. reflexivity.
    + specialize (IH 0).
      destruct (JS.split_from (String c0 sep0) 0 s) as [|h t] eqn:Es.
      * now apply split_from_nonempty in Es.
      * rewrite concat_String, IH. reflexivity.
Qed.

Lemma join_split (c0 : ascii) (sep0 s : string) :
  JS.join (String c0 sep0) (JS.split (String c0 sep0) s) = s.
Proof. apply (join_split_from c0 sep0 s 0). Qed.

(** ** Cache keys *)

Lemma append_assoc (a b c : string) : (a ++ b) ++ c = a ++ (b ++ c).
Proof. induction a as [|x a IH]; simpl; [reflexivity | now rewrite IH]. Qed.

(** The parts of a key built from clean components are the components. *)
Lemma split_toKey (p c a s : string) :
  JS.includes "::" p = false -> JS.endsWithChar ":" p = false ->
  JS.includes "::" c = false -> JS.endsWithChar ":" c = false ->
  JS.includes "::" a = false -> JS.endsWithChar ":" a = false ->
  JS.includes "::" s = false ->
  JS.split "::" (toKey (mkCacheKey p (Some c) (Some a) (Some s))) = [p; c; a; s].
Proof.
  intros Hp Ep Hc Ec Ha Ea Hs. unfold toKey. cbn [prefix client_id audience scope JS.template].
  rewrite (split_delim_cons p _ Hp Ep).
  rewrite (split_delim_cons c _ Hc Ec).
  rewrite (split_delim_cons a _ Ha Ea).
  now rewrite (split_none _ _ Hs).
Qed.

(** C5, as the specification states it, fails: with a client id that
    ends in a colon and an audience that starts with one, no component
    contains the delimiter, yet the key has five parts and the round trip
    loses the last one. *)
Lemma toKey_fromKey_counterexample :
  let ck := mkCacheKey keyPrefix (Some "a:") (Some ":b") (Some "s") in
  JS.includes "::" (prefix ck) = false /\
  JS.includes "::" "a:" = false /\
  JS.includes "::" ":b" = false /\
  JS.includes "::" "s" = false /\
  toKey ck = "@@auth0spajs@@::a::::b::s" /\
  toKey (fromKey (toKey ck)) = "@@auth0spajs@@::a::::b" /\
  toKey (fromKey (toKey ck)) <> toKey ck.
Proof. repeat split; easy. Qed.

(** C5, amended: [toKey (fromKey k) = k] for every key [k] that splits
    on the delimiter into exactly four parts; a key made by [toKey] from
    components without the delimiter, the first three of which do not end
    in a colon, is such a key, and [fromKey] gives back its components. *)
Theorem toKey_fromKey_roundtrip :
  (forall k : string,
     List.length (JS.split "::" k) = 4 -> toKey (fromKey k) = k) /\
  (forall p c a s : string,
     JS.includes "::" p = false -> JS.endsWithChar ":" p = false ->
     JS.includes "::" c = false -> JS.endsWithChar ":" c = false ->
     JS.includes "::" a = false -> JS.endsWithChar ":" a = false ->
     JS.includes "::" s = false ->
     let ck := mkCacheKey p (Some c) (Some a) (Some s) in
     fromKey (toKey ck) = ck /\ toKey (fromKey (toKey ck)) = toKey ck).
Proof.
  split.
  - intros k Hlen.
    pose proof (join_split ":"%char ":" k) as J.
    unfold fromKey, toKey.
    destruct (JS.split "::" k) as [|p [|c [|a [|s [|x l]]]]]; try discriminate Hlen.
    exact J.
  - intros p c a s Hp Ep Hc Ec Ha Ea Hs ck.
    assert (F : fromKey (toKey ck) = ck).
    { unfold fromKey, ck. now rewrite split_toKey. }
    split; [exact F | now rewrite F].
Qed.

Lemma toKey_fromKey_roundtrip_witness :
  List.length (JS.split "::" "@@auth0spajs@@::C1::A1::read write") = 4 /\
  toKey (fromKey "@@auth0spajs@@::C1::A1::read write")
  = "@@auth0spajs@@::C1::A1::read write" /\
  fromKey (toKey (mkCacheKey keyPrefix (Some "C1") (Some "A1") (Some "read write")))
  = mkCacheKey keyPrefix (Some "C1") (Some "A1") (Some "read write").
Proof.
  split; [reflexivity|]. split.
  - apply (proj1 toKey_fromKey_roundtrip). reflexivity.
  - apply (proj2 toKey_fromKey_roundtrip keyPrefix "C1" "A1" "read write");
      reflexivity.
Defined.

(** ** The lookup *)

Lemma strict_eq_iff (x y : option string) : strict_eq x y = true <-> x = y.
Proof.
  destruct x as [x|], y as [y|]; simpl; try easy.
  rewrite String.eqb_eq. split; congruence.
Qed.

Lemma arr_includes_iff (arr : list string) (x : string) :
  JS.arr_includes arr x = true <-> In x arr.
Proof.
  unfold JS.arr_includes. rewrite existsb_exists. split.
  - intros (y & Hy & E). apply String.eqb_eq in E. now subst.
  - intros H. exists x. split; [exact H | apply String.eqb_refl].
Qed.

Lemma scope_coversb_iff (stored requested : string) :
  scope_coversb stored requested = true <-> scope_covers stored requested.
Proof.
  unfold scope_coversb, scope_covers.
  rewrite andb_true_iff, negb_true_iff, String.eqb_neq, forallb_forall.
  split; intros [N H]; (split; [exact N|]); intros t Ht;
    apply arr_includes_iff; now apply H.
Qed.

Lemma matchesb_iff (c a : option string) (s key : string) :
  matchesb c a s key = true <-> Matches c a s key.
Proof.
  unfold matchesb, Matches.
  rewrite !andb_true_iff, String.eqb_eq, !strict_eq_iff.
  destruct (scope (fromKey key)) as [stored|].
  - rewrite scope_coversb_iff. split.
    + intros [[[P C] A] S]. repeat split; try assumption. now exists stored.
    + intros (P & C & A & st & E & S). injection E as <-. tauto.
  - split; [intros [_ F]; discriminate F | intros (_ & _ & _ & st & E & _); discriminate E].
Qed.

(** The [reduce] of [findExistingCacheKey] is a conjunction. *)
Lemma reduce_and (f : string -> bool) (l : list string) (acc : bool) :
  fold_left (fun acc current => acc && f current) l acc = acc && forallb f l.
Proof.
  revert acc. induction l as [|x l IH]; intros acc; simpl.
  - now rewrite andb_true_r.
  - now rewrite IH, andb_assoc.
Qed.

Lemma truthy_Some (s : string) : JS.truthy (Some s) = negb (String.eqb s "").
Proof. destruct s; reflexivity. Qed.

(** With a requested scope that is a string the callback never throws,
    and it decides [matchesb]. *)
Lemma matchesCacheKey_total (p : string) (c a : option string) (s key : string) :
  matchesCacheKey (mkCacheKey p c a (Some s)) key = Ok (matchesb c a s key).
Proof.
  unfold matchesCacheKey, matchesb, hasAllScopes. cbn [scope client_id audience].
  destruct (scope (fromKey key)) as [stored|].
  - rewrite truthy_Some. unfold scope_coversb. cbn [JS.template].
    destruct (negb (stored =? "")); cbn [andb].
    + now rewrite reduce_and.
    + reflexivity.
  - reflexivity.
Qed.

Lemma filterR_total {A : Type} (f : A -> Result bool) (g : A -> bool) (l : list A) :
  (forall x, f x = Ok (g x)) -> filterR f l = Ok (filter g l).
Proof.
  intros H. induction l as [|x l IH]; simpl; [reflexivity|].
  now rewrite H, IH.
Qed.

Lemma hd_error_filter {A : Type} (g : A -> bool) (l : list A) :
  hd_error (filter g l) = find g l.
Proof.
  induction l as [|x l IH]; simpl; [reflexivity|].
  destruct (g x); [reflexivity | exact IH].
Qed.

Lemma findExistingCacheKey_find (p : string) (c a : option string) (s : string)
    (keys : list string) :
  findExistingCacheKey (mkCacheKey p c a (Some s)) keys
  = Ok (find (matchesb c a s) keys).
Proof.
  unfold findExistingCacheKey.
  rewrite (filterR_total _ (matchesb c a s)) by apply matchesCacheKey_total.
  now rewrite hd_error_filter.
Qed.

Lemma find_first_such (g : string -> bool) (P : string -> Prop) (keys : list string) :
  (forall k, g k = true <-> P k) ->
  match find g keys with
  | Some k => first_such P keys k
  | None => forall k, In k keys -> ~ P k
  end.
Proof.
  intros R. induction keys as [|x keys IH]; simpl.
  - intros k [].
  - destruct (g x) eqn:E.
    + exists [], keys. split; [reflexivity|]. split; [now apply R | intros k' []].
    + assert (Nx : ~ P x) by (rewrite <- R, E; discriminate).
      destruct (find g keys) as [k|].
      * destruct IH as (before & after & -> & Pk & Hb).
        exists (x :: before), after. split; [reflexivity|]. split; [exact Pk|].
        intros k' [<-|Hk']; [exact Nx | now apply Hb].
      * intros k [<-|Hk]; [exact Nx | now apply IH].
Qed.

(** Cutting a scope written with single spaces gives its tokens back. *)
Lemma split_join_space (q : list string) :
  q <> [] -> (forall t, In t q -> JS.includes " " t = false) ->
  JS.split " " (JS.join " " q) = q.
Proof.
  unfold JS.join. induction q as [|t q IH]; intros N H; [congruence|].
  destruct q as [|t' q].
  - simpl. apply split_none. apply H. now left.
  - rewrite concat_cons_nonempty by discriminate.
    rewrite split_space_cons by (apply H; now left).
    rewrite IH; [reflexivity | discriminate |].
    intros u Hu. apply H. now right.
Qed.

Lemma abc_no_space (t : string) :
  In t ["a"; "b"; "c"] -> JS.includes " " t = false.
Proof. intros [<-|[<-|[<-|[]]]]; reflexivity. Qed.

(** C1, as the specification states it, fails on two inputs.  A stored
    key with an empty scope is never selected, although the empty scope
    set contains every token of an empty requested scope; and a stored
    scope ["a b c"] does not serve the empty requested scope, the empty
    subset of its tokens. *)
Lemma findExistingCacheKey_counterexample :
  let requested := mkCacheKey keyPrefix (Some "c") (Some "a") (Some "") in
  (Spec.lookup requested ["@@auth0spajs@@::c::a::"]
     = Some "@@auth0spajs@@::c::a::" /\
   findExistingCacheKey requested ["@@auth0spajs@@::c::a::"] = Ok None) /\
  (Spec.lookup requested ["@@auth0spajs@@::c::a::a b c"]
     = Some "@@auth0spajs@@::c::a::a b c" /\
   findExistingCacheKey requested ["@@auth0spajs@@::c::a::a b c"] = Ok None).
Proof. repeat split. Qed.

(** C1, amended: for a requested key whose scope is a string,
    [findExistingCacheKey] returns the first stored key, in enumeration
    order, whose prefix is the namespace tag, whose client id and audience
    are the requested ones, and whose scope is a non-empty string that
    has, cut at every single space, every token of the requested scope
    cut the same way; it returns [undefined] when no stored key is such.
    A stored scope ["a b c"] covers every query that joins, with single
    spaces, a non-empty list of tokens among a, b and c, and does not
    cover ["a b c d"]. *)
Theorem findExistingCacheKey_first_match :
  (forall (p : string) (c a : option string) (s : string) (keys : list string),
     exists r,
       findExistingCacheKey (mkCacheKey p c a (Some s)) keys = Ok r /\
       match r with
       | Some k => first_such (Matches c a s) keys k
       | None => forall k, In k keys -> ~ Matches c a s k
       end) /\
  (forall q : list string,
     q <> [] -> (forall t, In t q -> In t ["a"; "b"; "c"]) ->
     scope_covers "a b c" (JS.join " " q)) /\
  ~ scope_covers "a b c" "a b c d".
Proof.
  split; [|split].
  - intros p c a s keys. exists (find (matchesb c a s) keys).
    split; [apply findExistingCacheKey_find|].
    apply find_first_such. intros k. apply matchesb_iff.
  - intros q N H. split; [discriminate|].
    rewrite split_join_space; [exact H | exact N |].
    intros t Ht. apply abc_no_space. now apply H.
  - intros [_ H]. specialize (H "d").
    assert (I : In "d" ["a"; "b"; "c"]) by (apply H; simpl; tauto).
    simpl in I. repeat (destruct I as [I|I]; [discriminate I|]). exact I.
Qed.

Lemma findExistingCacheKey_first_match_witness :
  scope_covers "a b c" "b c" /\
  first_such (Matches (Some "C1") (Some "A1") "openid")
    ["other"; "@@auth0spajs@@::C1::A1::openid profile"]
    "@@auth0spajs@@::C1::A1::openid profile".
Proof.
  split.
  - apply (proj1 (proj2 findExistingCacheKey_first_match) ["b"; "c"]).
    + discriminate.
    + simpl. intros t [<-|[<-|[]]]; tauto.
  - destruct (proj1 findExistingCacheKey_first_match keyPrefix
                (Some "C1") (Some "A1") "openid"
                ["other"; "@@auth0spajs@@::C1::A1::openid profile"])
      as (r & E & H).
    vm_compute in E. injection E as <-. exact H.
Defined.

(** The callback rejects a key whose scope is the empty string, and
    does not throw on it. *)
Lemma matchesCacheKey_empty_scope (requested : CacheKey) (k : string) :
  scope (fromKey k) = Some "" -> matchesCacheKey requested k = Ok false.
Proof.
  intros E. unfold matchesCacheKey, hasAllScopes. rewrite E. cbn.
  now rewrite !andb_false_r.
Qed.

Lemma filterR_In {A : Type} (f : A -> Result bool) (l r : list A) (x : A) :
  filterR f l = Ok r -> In x r -> In x l /\ f x = Ok true.
Proof.
  revert r. induction l as [|y l IH]; intros r; simpl.
  - intros [= <-] [].
  - destruct (f y) as [b|e] eqn:Ey; [|discriminate].
    destruct (filterR f l) as [r'|e]; [|discriminate].
    intros [= <-] Hx. destruct b.
    + destruct Hx as [<-|Hx]; [tauto|].
      destruct (IH r' eq_refl Hx). tauto.
    + destruct (IH r' eq_refl Hx). tauto.
Qed.

Lemma findExistingCacheKey_Some (requested : CacheKey) (keys : list string)
    (k : string) :
  findExistingCacheKey requested keys = Ok (Some k) ->
  In k keys /\ matchesCacheKey requested k = Ok true.
Proof.
  unfold findExistingCacheKey.
  destruct (filterR (matchesCacheKey requested) keys) as [r|e] eqn:E; [|discriminate].
  destruct r as [|x r]; [discriminate|]. intros [= ->].
  apply (filterR_In _ _ _ _ E). now left.
Qed.

Lemma filterR_nil_iff {A : Type} (f : A -> Result bool) (l : list A) :
  filterR f l = Ok [] <-> forall x, In x l -> f x = Ok false.
Proof.
  induction l as [|y l IH]; simpl.
  - split; [intros _ x [] | reflexivity].
  - destruct (f y) as [b|e] eqn:Ey.
    + destruct (filterR f l) as [r|e] eqn:E.
      * destruct b.
        -- split; [discriminate|]. intros H. specialize (H y (or_introl eq_refl)).
           congruence.
        -- split.
           ++ intros [= ->] x [<-|Hx]; [exact Ey | now apply IH].
           ++ intros H. f_equal. assert (I : Ok r = Ok []) by (apply IH; auto).
              now injection I.
      * split; [discriminate|]. intros H.
        assert (I : @Throw (list A) e = Ok []) by (apply IH; auto). discriminate I.
    + split; [discriminate|]. intros H. specialize (H y (or_introl eq_refl)).
      congruence.
Qed.

Lemma findExistingCacheKey_None_iff (requested : CacheKey) (keys : list string) :
  findExistingCacheKey requested keys = Ok None <->
  forall k, In k keys -> matchesCacheKey requested k = Ok false.
Proof.
  rewrite <- filterR_nil_iff. unfold findExistingCacheKey.
  destruct (filterR (matchesCacheKey requested) keys) as [[|x r]|e];
    split; intros H; try discriminate H; reflexivity.
Qed.

(** Keys that the callback rejects without throwing can be left out. *)
Lemma filterR_filter_out {A : Type} (f : A -> Result bool) (g : A -> bool)
    (l : list A) :
  (forall x, g x = false -> f x = Ok false) ->
  filterR f (filter g l) = filterR f l.
Proof.
  intros H. induction l as [|y l IH]; simpl; [reflexivity|].
  destruct (g y) eqn:Ey; simpl.
  - now rewrite IH.
  - rewrite (H y Ey), IH. now destruct (filterR f l).
Qed.

Lemma hasAllScopes_throws (requested current : option string) (e : Exn) :
  hasAllScopes requested current = Throw e <->
  e = TypeError /\ requested = None /\ JS.truthy current = true.
Proof.
  unfold hasAllScopes. destruct (JS.truthy current), requested as [sc|];
    split; try discriminate; try (intros (_ & H & _); discriminate H);
    try (intros (_ & _ & H); discriminate H).
  - intros [= <-]. now repeat split.
  - intros (-> & _ & _). reflexivity.
Qed.

Lemma matchesCacheKey_throws (requested : CacheKey) (k : string) (e : Exn) :
  matchesCacheKey requested k = Throw e <->
  e = TypeError /\ scope requested = None /\ JS.truthy (scope (fromKey k)) = true.
Proof.
  rewrite <- hasAllScopes_throws. unfold matchesCacheKey.
  destruct (hasAllScopes (scope requested) (scope (fromKey k)));
    split; intros H; try discriminate H; exact H.
Qed.

Lemma filterR_throws {A : Type} (f : A -> Result bool) (l : list A) (e : Exn) :
  filterR f l = Throw e -> exists x, In x l /\ f x = Throw e.
Proof.
  induction l as [|y l IH]; simpl; [discriminate|].
  destruct (f y) as [b|e'] eqn:Ey.
  - destruct (filterR f l) as [r|e'']; [discriminate|].
    intros [= ->]. destruct (IH eq_refl) as (x & Hx & Fx). exists x. tauto.
  - intros [= ->]. exists y. tauto.
Qed.

Lemma filterR_throws_one {A : Type} (f : A -> Result bool) (l : list A) (e : Exn) :
  (forall x e', f x = Throw e' -> e' = e) ->
  (exists x, In x l /\ f x = Throw e) -> filterR f l = Throw e.
Proof.
  intros U (x & Hx & Fx). induction l as [|y l IH]; simpl; [destruct Hx|].
  destruct (f y) as [b|e'] eqn:Ey.
  - destruct Hx as [<-|Hx]; [congruence|]. now rewrite (IH Hx).
  - now rewrite (U y e' Ey).
Qed.

(** Over two enumerations of the same keys the lookup throws alike,
    finds nothing alike, and finds keys that both pass its test; the two
    keys are the same one when a single key passes. *)
Lemma findExistingCacheKey_throw_perm (requested : CacheKey)
    (l l' : list string) (e : Exn) :
  Permutation l l' ->
  findExistingCacheKey requested l = Throw e ->
  findExistingCacheKey requested l' = Throw e.
Proof.
  intros P. unfold findExistingCacheKey.
  destruct (filterR (matchesCacheKey requested) l) as [r|e'] eqn:F; [discriminate|].
  intros [= ->]. apply filterR_throws in F as (k & Hk & Fk).
  assert (E : e = TypeError) by now apply matchesCacheKey_throws in Fk.
  subst e.
  rewrite (filterR_throws_one (matchesCacheKey requested) l' TypeError).
  - reflexivity.
  - intros x e' H. now apply matchesCacheKey_throws in H.
  - exists k. split; [now apply (Permutation_in _ P) | exact Fk].
Qed.

Lemma findExistingCacheKey_none_perm (requested : CacheKey) (l l' : list string) :
  Permutation l l' ->
  findExistingCacheKey requested l = Ok None ->
  findExistingCacheKey requested l' = Ok None.
Proof.
  intros P. rewrite !findExistingCacheKey_None_iff. intros H k Hk.
  apply H. now apply (Permutation_in _ (Permutation_sym P)).
Qed.

Lemma findExistingCacheKey_some_perm (requested : CacheKey) (l l' : list string)
    (k1 : string) :
  Permutation l l' ->
  findExistingCacheKey requested l = Ok (Some k1) ->
  exists k2,
    findExistingCacheKey requested l' = Ok (Some k2) /\
    In k1 l' /\ In k2 l /\
    matchesCacheKey requested k1 = Ok true /\
    matchesCacheKey requested k2 = Ok true /\
    ((forall k k', In k l -> In k' l ->
        matchesCacheKey requested k = Ok true ->
        matchesCacheKey requested k' = Ok true -> k = k') ->
     k1 = k2).
Proof.
  intros P S. pose proof (findExistingCacheKey_Some _ _ _ S) as [I1 M1].
  destruct (findExistingCacheKey requested l') as [[k2|]|e] eqn:S'.
  - pose proof (findExistingCacheKey_Some _ _ _ S') as [I2 M2].
    assert (I2' : In k2 l) by now apply (Permutation_in _ (Permutation_sym P)).
    exists k2. split; [reflexivity|]. split; [now apply (Permutation_in _ P)|].
    repeat split; try assumption.
    intros U. now apply U.
  - apply (findExistingCacheKey_none_perm _ _ _ (Permutation_sym P)) in S'.
    congruence.
  - apply (findExistingCacheKey_throw_perm _ _ _ _ (Permutation_sym P)) in S'.
    congruence.
Qed.

(** ** Heap and tables *)

Lemma nth_error_alloc {A : Type} (l : list A) (o : A) :
  nth_error (l ++ [o]) (List.length l) = Some o.
Proof. rewrite nth_error_app2, Nat.sub_diag by lia. reflexivity. Qed.

Lemma nth_error_update_nth {A : Type} (f : A -> A) (l : list A) (n : nat) :
  nth_error (update_nth n f l) n = option_map f (nth_error l n).
Proof.
  revert n. induction l as [|x l IH]; intros [|n]; simpl; try reflexivity.
  apply IH.
Qed.

Lemma nth_error_update_nth_other {A : Type} (f : A -> A) (l : list A) (n m : nat) :
  n <> m -> nth_error (update_nth n f l) m = nth_error l m.
Proof.
  revert n m. induction l as [|x l IH]; intros [|n] [|m] H; simpl;
    try reflexivity; try congruence.
  apply IH. congruence.
Qed.

Section TableProperties.
Context {V : Type}.
Implicit Types (t : list (string * V)) (k : string) (v : V).

Lemma table_get_set_same t k v : table_get k (table_set k v t) = Some v.
Proof.
  induction t as [|[k' v'] t IH]; simpl.
  - now rewrite String.eqb_refl.
  - destruct (String.eqb_spec k k') as [->|N]; simpl.
    + now rewrite String.eqb_refl.
    + destruct (String.eqb_spec k k'); [contradiction | exact IH].
Qed.

Lemma table_get_set_other t k k' v :
  k' <> k -> table_get k' (table_set k v t) = table_get k' t.
Proof.
  intros N. induction t as [|[k0 v0] t IH]; simpl.
  - destruct (String.eqb_spec k' k); [contradiction | reflexivity].
  - destruct (String.eqb_spec k k0) as [->|N0]; simpl.
    + destruct (String.eqb_spec k' k0); [contradiction | reflexivity].
    + now rewrite IH.
Qed.

Lemma table_get_remove_same t k : table_get k (table_remove k t) = None.
Proof.
  induction t as [|[k0 v0] t IH]; simpl; [reflexivity|].
  destruct (String.eqb_spec k k0) as [->|N]; simpl; [exact IH|].
  destruct (String.eqb_spec k k0); [contradiction | exact IH].
Qed.

Lemma table_get_remove_other t k k' :
  k' <> k -> table_get k' (table_remove k t) = table_get k' t.
Proof.
  intros N. induction t as [|[k0 v0] t IH]; simpl; [reflexivity|].
  destruct (String.eqb_spec k k0) as [->|N0]; simpl.
  - destruct (String.eqb_spec k' k0); [contradiction | exact IH].
  - now rewrite IH.
Qed.

Lemma table_keys_remove t k :
  table_keys (table_remove k t) = filter (fun k' => negb (String.eqb k k')) (table_keys t).
Proof.
  induction t as [|[k0 v0] t IH]; simpl; [reflexivity|].
  destruct (String.eqb k k0); simpl; now rewrite <- IH.
Qed.

Lemma table_get_In t k v : table_get k t = Some v -> In k (table_keys t).
Proof.
  induction t as [|[k0 v0] t IH]; simpl; [discriminate|].
  destruct (String.eqb_spec k k0) as [->|N]; [now left | right; now apply IH].
Qed.

Lemma table_remove_absent t k : ~ In k (table_keys t) -> table_remove k t = t.
Proof.
  induction t as [|[k0 v0] t IH]; simpl; [reflexivity|]. intros H.
  destruct (String.eqb_spec k k0) as [->|N]; simpl; [tauto|].
  f_equal. apply IH. tauto.
Qed.

Lemma table_remove_app t1 t2 k :
  table_remove k (t1 ++ t2) = (table_remove k t1 ++ table_remove k t2)%list.
Proof. apply filter_app. Qed.

End TableProperties.

(** ** The cache manager and the backends *)

Section CacheProperties.
Context {IdToken User : Type}.
Variable claims_exp : IdToken -> Z.
Variable JSON_stringify : @WrappedCacheEntry IdToken User -> string.
Variable JSON_parse : string -> @Parsed IdToken User.

Local Abbreviation LS := (LocalStorageCache JSON_stringify JSON_parse).
Local Abbreviation Mem := (@InMemoryCache IdToken User).
Local Abbreviation Store := (@ICache IdToken User).
Local Abbreviation world := (@World IdToken User).
Local Abbreviation wrapped := (@WrappedCacheEntry IdToken User).
Local Abbreviation get := (@CacheManager_get IdToken User).

Implicit Types (c : Store) (w : world) (o : wrapped) (r : nat)
  (now adj : Z) (ck : CacheKey).

(** *** The runs of [CacheManager.get] *)

Lemma get_throws c now ck adj w w1 e :
  ic_get c (toKey ck) w = (Throw e, w1) ->
  get c now ck adj w = (Throw e, w1).
Proof. intros G. unfold CacheManager_get, bind. now rewrite G. Qed.

Lemma get_absent c now ck adj w w1 :
  ic_get c (toKey ck) w = (Ok None, w1) ->
  get c now ck adj w = (Ok None, w1).
Proof. intros G. unfold CacheManager_get, bind. now rewrite G. Qed.

Lemma get_fresh c now ck adj w w1 r o :
  ic_get c (toKey ck) w = (Ok (Some r), w1) ->
  nth_error (heap w1) r = Some o ->
  (nowSeconds now <= expiresAt o - adj)%Z ->
  get c now ck adj w = (Ok (Some (body o)), w1).
Proof.
  intros G D T. unfold CacheManager_get, bind. rewrite G.
  unfold deref. rewrite D.
  destruct (Z.ltb_spec (expiresAt o - adj) (nowSeconds now)); [lia|].
  reflexivity.
Qed.

Lemma get_expired_refresh_LS now ck adj w w1 r o :
  ic_get LS (toKey ck) w = (Ok (Some r), w1) ->
  nth_error (heap w1) r = Some o ->
  (expiresAt o - adj < nowSeconds now)%Z ->
  JS.truthy (p_refresh_token (body o)) = true ->
  get LS now ck adj w =
  (Ok (Some (body (remnant o))),
   mkWorld (update_nth r (with_body (body (remnant o))) (heap w1))
           (table_set (toKey ck) (JSON_stringify (remnant o)) (localStorage w1))
           (cache w1)).
Proof.
  intros G D T R. unfold CacheManager_get, bind. rewrite G.
  unfold deref at 1. rewrite D.
  destruct (Z.ltb_spec (expiresAt o - adj) (nowSeconds now)); [|lia].
  rewrite R. cbn [assign_body ic_set LocalStorageCache].
  unfold LocalStorageCache_set, bind, deref, with_localStorage, ret.
  cbn [heap localStorage cache].
  rewrite nth_error_update_nth, D. cbn [option_map heap localStorage cache].
  rewrite nth_error_update_nth, D. reflexivity.
Qed.

Lemma get_expired_refresh_Mem now ck adj w w1 r o :
  ic_get Mem (toKey ck) w = (Ok (Some r), w1) ->
  nth_error (heap w1) r = Some o ->
  (expiresAt o - adj < nowSeconds now)%Z ->
  JS.truthy (p_refresh_token (body o)) = true ->
  get Mem now ck adj w =
  (Ok (Some (body (remnant o))),
   mkWorld (update_nth r (with_body (body (remnant o))) (heap w1))
           (localStorage w1)
           (table_set (toKey ck) r (cache w1))).
Proof.
  intros G D T R. unfold CacheManager_get, bind. rewrite G.
  unfold deref at 1. rewrite D.
  destruct (Z.ltb_spec (expiresAt o - adj) (nowSeconds now)); [|lia].
  rewrite R. cbn [assign_body ic_set InMemoryCache].
  unfold InMemoryCache_set, bind, deref, with_cache, ret.
  cbn [heap localStorage cache].
  rewrite nth_error_update_nth, D. reflexivity.
Qed.

Lemma get_expired_gone_LS now ck adj w w1 r o :
  ic_get LS (toKey ck) w = (Ok (Some r), w1) ->
  nth_error (heap w1) r = Some o ->
  (expiresAt o - adj < nowSeconds now)%Z ->
  JS.truthy (p_refresh_token (body o)) = false ->
  get LS now ck adj w =
  (Ok None,
   mkWorld (heap w1) (table_remove (toKey ck) (localStorage w1)) (cache w1)).
Proof.
  intros G D T R. unfold CacheManager_get, bind. rewrite G.
  unfold deref at 1. rewrite D.
  destruct (Z.ltb_spec (expiresAt o - adj) (nowSeconds now)); [|lia].
  rewrite R. reflexivity.
Qed.

Lemma get_expired_gone_Mem now ck adj w w1 r o :
  ic_get Mem (toKey ck) w = (Ok (Some r), w1) ->
  nth_error (heap w1) r = Some o ->
  (expiresAt o - adj < nowSeconds now)%Z ->
  JS.truthy (p_refresh_token (body o)) = false ->
  get Mem now ck adj w =
  (Ok None,
   mkWorld (heap w1) (localStorage w1) (table_remove (toKey ck) (cache w1))).
Proof.
  intros G D T R. unfold CacheManager_get, bind. rewrite G.
  unfold deref at 1. rewrite D.
  destruct (Z.ltb_spec (expiresAt o - adj) (nowSeconds now)); [|lia].
  rewrite R. reflexivity.
Qed.

(** *** C2: what [CacheManager.get] returns *)

(** C2, as the specification states it, fails at the deadline itself: a
    call in the second [expiresAt] (adjustment [0], refresh token present)
    is a call "at or after [expiresAt]", and it returns the full body, not
    the remnant. *)
Lemma CacheManager_get_counterexample :
  let o := Example.stored in
  nth_error (heap Example.after_set_Mem) 0 = Some o /\
  expiresAt o = 100%Z /\
  (0 <= 0)%Z /\
  (nowSeconds 100000 >= expiresAt o - 0)%Z /\
  p_refresh_token (body o) = Some "rt" /\
  fst (CacheManager_get Example.Mem 100000 Example.own_key 0 Example.after_set_Mem)
  = Ok (Some (body o)) /\
  body o <> refreshOnly (Some "rt").
Proof. repeat split; try easy. Qed.

(** C2, amended: on either backend, when the backend yields the wrapped
    entry [o], [CacheManager.get] called in a second [n] with
    [n <= expiresAt - a] returns the stored body unchanged; called with
    [expiresAt - a < n] it returns [{ refresh_token }] alone when the
    stored refresh token is a non-empty string, and nothing otherwise. *)
Theorem CacheManager_get_result c now ck adj w w1 r o :
  c = LS \/ c = Mem ->
  ic_get c (toKey ck) w = (Ok (Some r), w1) ->
  nth_error (heap w1) r = Some o ->
  ((nowSeconds now <= expiresAt o - adj)%Z ->
   fst (get c now ck adj w) = Ok (Some (body o))) /\
  ((expiresAt o - adj < nowSeconds now)%Z ->
   JS.truthy (p_refresh_token (body o)) = true ->
   fst (get c now ck adj w) = Ok (Some (refreshOnly (p_refresh_token (body o))))) /\
  ((expiresAt o - adj < nowSeconds now)%Z ->
   JS.truthy (p_refresh_token (body o)) = false ->
   fst (get c now ck adj w) = Ok None).
Proof.
  intros Hc G D. split; [|split].
  - intros T. now rewrite (get_fresh _ _ _ _ _ _ _ _ G D T).
  - intros T R. destruct Hc as [-> | ->].
    + now rewrite (get_expired_refresh_LS _ _ _ _ _ _ _ G D T R).
    + now rewrite (get_expired_refresh_Mem _ _ _ _ _ _ _ G D T R).
  - intros T R. destruct Hc as [-> | ->].
    + now rewrite (get_expired_gone_LS _ _ _ _ _ _ _ G D T R).
    + now rewrite (get_expired_gone_Mem _ _ _ _ _ _ _ G D T R).
Qed.

(** *** The backends' [get] *)

(** A key that the lookup returns is not the empty string. *)
Lemma selected_truthy (requested : CacheKey) (keys : list string) (k : string) :
  findExistingCacheKey requested keys = Ok (Some k) -> JS.truthy (Some k) = true.
Proof.
  intros H. apply findExistingCacheKey_Some in H as [_ H].
  destruct k; [discriminate H | reflexivity].
Qed.

Lemma LS_get_unfold (key : string) w :
  ic_get LS key w =
  match findExistingCacheKey (fromKey key) (table_keys (localStorage w)) with
  | Throw e => (Throw e, w)
  | Ok existingCacheKey =>
      LocalStorageCache_payload JSON_parse
        (if JS.truthy existingCacheKey
         then table_get (JS.template existingCacheKey) (localStorage w)
         else existingCacheKey) w
  end.
Proof.
  cbn [ic_get LocalStorageCache].
  unfold LocalStorageCache_get, LocalStorageCache_readJson, bind, ret.
  destruct (findExistingCacheKey _ _) as [sel|e]; [|reflexivity].
  destruct (LocalStorageCache_payload _ _ w) as [[x|e] w']; reflexivity.
Qed.

Lemma Mem_get_unfold (key : string) w :
  ic_get Mem key w =
  match findExistingCacheKey (fromKey key) (table_keys (cache w)) with
  | Throw e => (Throw e, w)
  | Ok existingCacheKey =>
      (Ok (table_get (JS.template existingCacheKey) (cache w)), w)
  end.
Proof. reflexivity. Qed.

Lemma payload_entry (text : string) o w :
  text <> "" -> JSON_parse text = ParsedEntry o ->
  LocalStorageCache_payload JSON_parse (Some text) w =
  (Ok (Some (List.length (heap w))),
   mkWorld (heap w ++ [o]) (localStorage w) (cache w)).
Proof.
  intros N P. unfold LocalStorageCache_payload.
  rewrite truthy_Some. destruct (String.eqb_spec text ""); [contradiction|].
  cbn [negb JS.template]. rewrite P. reflexivity.
Qed.

(** The durable [get], when the lookup selects [k] and the text under
    [k] is that of an entry. *)
Lemma LS_get_entry (key k text : string) o w :
  findExistingCacheKey (fromKey key) (table_keys (localStorage w)) = Ok (Some k) ->
  table_get k (localStorage w) = Some text ->
  text <> "" ->
  JSON_parse text = ParsedEntry o ->
  ic_get LS key w =
  (Ok (Some (List.length (heap w))),
   mkWorld (heap w ++ [o]) (localStorage w) (cache w)).
Proof.
  intros S G N P. rewrite LS_get_unfold, S, (selected_truthy _ _ _ S).
  cbn [JS.template]. rewrite G. now apply payload_entry.
Qed.

(** What the durable [get] can do: throw, yield nothing, or yield a new
    object parsed from a stored text; in the first two cases the world
    is as it was. *)
Lemma LS_get_cases (key : string) w :
  (exists e, ic_get LS key w = (Throw e, w)) \/
  ic_get LS key w = (Ok None, w) \/
  exists k text o,
    findExistingCacheKey (fromKey key) (table_keys (localStorage w)) = Ok (Some k) /\
    table_get k (localStorage w) = Some text /\
    JSON_parse text = ParsedEntry o /\
    ic_get LS key w =
    (Ok (Some (List.length (heap w))),
     mkWorld (heap w ++ [o]) (localStorage w) (cache w)).
Proof.
  rewrite LS_get_unfold.
  destruct (findExistingCacheKey _ _) as [[k|]|e] eqn:S.
  - rewrite (selected_truthy _ _ _ S). cbn [JS.template].
    destruct (table_get k (localStorage w)) as [text|] eqn:G.
    + unfold LocalStorageCache_payload. rewrite truthy_Some.
      destruct (String.eqb_spec text ""); cbn [negb JS.template].
      * right. now left.
      * destruct (JSON_parse text) as [| |o] eqn:P.
        -- left. now exists SyntaxError.
        -- right. now left.
        -- right. right. exists k, text, o. repeat split; assumption.
    + right. now left.
  - right. now left.
  - left. now exists e.
Qed.

(** *** C3: what [CacheManager.set] stores *)

Lemma set_LS_run now (entry : @CacheEntry IdToken User) w :
  CacheManager_set claims_exp LS now entry w =
  (Ok tt,
   mkWorld (heap w ++ [wrapCacheEntry claims_exp now entry])
           (table_set
              (toKey (mkCacheKey keyPrefix (Some (entry_client_id entry))
                        (Some (entry_audience entry)) (Some (entry_scope entry))))
              (JSON_stringify (wrapCacheEntry claims_exp now entry))
              (localStorage w))
           (cache w)).
Proof.
  unfold CacheManager_set, bind, alloc. cbn [ic_set LocalStorageCache].
  unfold LocalStorageCache_set, bind, deref, with_localStorage.
  cbn [heap localStorage cache]. rewrite nth_error_alloc. reflexivity.
Qed.

Lemma set_Mem_run now (entry : @CacheEntry IdToken User) w :
  CacheManager_set claims_exp Mem now entry w =
  (Ok tt,
   mkWorld (heap w ++ [wrapCacheEntry claims_exp now entry])
           (localStorage w)
           (table_set
              (toKey (mkCacheKey keyPrefix (Some (entry_client_id entry))
                        (Some (entry_audience entry)) (Some (entry_scope entry))))
              (List.length (heap w))
              (cache w))).
Proof. reflexivity. Qed.

(** What a read leaves in the durable store: the store as it was, or
    the store without the requested key, or the store with the requested
    key bound to the remnant of an entry that was stored, with the
    [expiresAt] that entry was stored with. *)
Lemma get_LS_store now ck adj w :
  let w' := snd (get LS now ck adj w) in
  localStorage w' = localStorage w \/
  localStorage w' = table_remove (toKey ck) (localStorage w) \/
  exists k text o,
    table_get k (localStorage w) = Some text /\
    JSON_parse text = ParsedEntry o /\
    localStorage w' =
    table_set (toKey ck)
      (JSON_stringify (mkWrapped (refreshOnly (p_refresh_token (body o))) (expiresAt o)))
      (localStorage w).
Proof.
  cbn zeta.
  destruct (LS_get_cases (toKey ck) w) as [[e G] | [G | (k & text & o & S & T & P & G)]].
  - rewrite (get_throws _ _ _ _ _ _ _ G). now left.
  - rewrite (get_absent _ _ _ _ _ _ G). now left.
  - assert (D : nth_error (heap (mkWorld (heap w ++ [o]) (localStorage w) (cache w)))
                  (List.length (heap w)) = Some o) by apply nth_error_alloc.
    destruct (Z.ltb_spec (expiresAt o - adj) (nowSeconds now)) as [E|E].
    + destruct (JS.truthy (p_refresh_token (body o))) eqn:R.
      * rewrite (get_expired_refresh_LS _ _ _ _ _ _ _ G D E R).
        right. right. exists k, text, o. now repeat split.
      * rewrite (get_expired_gone_LS _ _ _ _ _ _ _ G D E R). right. now left.
    + rewrite (get_fresh _ _ _ _ _ _ _ _ G D E). now left.
Qed.

(** A read on the ephemeral store leaves every object its [expiresAt]. *)
Lemma get_Mem_heap now ck adj w i o :
  nth_error (heap w) i = Some o ->
  exists o', nth_error (heap (snd (get Mem now ck adj w))) i = Some o' /\
             expiresAt o' = expiresAt o.
Proof.
  intros Hi.
  destruct (ic_get Mem (toKey ck) w) as [[[r|]|e] w1] eqn:G.
  - assert (W : w1 = w).
    { rewrite Mem_get_unfold in G. destruct (findExistingCacheKey _ _); congruence. }
    subst w1.
    destruct (nth_error (heap w) r) as [x|] eqn:D.
    + destruct (Z.ltb_spec (expiresAt x - adj) (nowSeconds now)) as [E|E].
      * destruct (JS.truthy (p_refresh_token (body x))) eqn:R.
        -- rewrite (get_expired_refresh_Mem _ _ _ _ _ _ _ G D E R). cbn [snd heap].
           destruct (Nat.eq_dec r i) as [->|N].
           ++ rewrite nth_error_update_nth, Hi. cbn. now eexists.
           ++ rewrite nth_error_update_nth_other by exact N. now exists o.
        -- rewrite (get_expired_gone_Mem _ _ _ _ _ _ _ G D E R). now exists o.
      * rewrite (get_fresh _ _ _ _ _ _ _ _ G D E). now exists o.
    + unfold CacheManager_get, bind. rewrite G. unfold deref. rewrite D.
      now exists o.
  - rewrite (get_absent _ _ _ _ _ _ G).
    rewrite Mem_get_unfold in G. destruct (findExistingCacheKey _ _); [|discriminate].
    injection G as _ <-. now exists o.
  - rewrite (get_throws _ _ _ _ _ _ _ G).
    rewrite Mem_get_unfold in G. destruct (findExistingCacheKey _ _); [discriminate|].
    injection G as _ <-. now exists o.
Qed.

(** C3: [CacheManager.set] stores, under the key made of the default
    prefix and the entry's client id, audience and scope, the wrapped
    entry [{ body: entry, expiresAt }] with
    [expiresAt = min (floor (now / 1000) + expires_in) claims.exp]: as its
    JSON text in the durable store, as a reference to the object in the
    ephemeral one; what was under that key before is replaced and the
    other keys keep their values.  A later read computes no [expiresAt]:
    what it writes back carries the [expiresAt] it read, and the objects
    of the ephemeral store keep theirs. *)
Theorem CacheManager_set_stores now (entry : @CacheEntry IdToken User) w :
  let key :=
    keyPrefix ++ "::" ++ entry_client_id entry ++ "::" ++
    entry_audience entry ++ "::" ++ entry_scope entry in
  let o :=
    mkWrapped (asPartial entry)
      (Z.min (now / 1000 + expires_in entry)
             (claims_exp (claims (decodedToken entry)))) in
  (exists w',
     CacheManager_set claims_exp LS now entry w = (Ok tt, w') /\
     table_get key (localStorage w') = Some (JSON_stringify o) /\
     forall k, k <> key ->
       table_get k (localStorage w') = table_get k (localStorage w)) /\
  (exists w' r,
     CacheManager_set claims_exp Mem now entry w = (Ok tt, w') /\
     table_get key (cache w') = Some r /\
     nth_error (heap w') r = Some o /\
     forall k, k <> key -> table_get k (cache w') = table_get k (cache w)) /\
  (forall now' ck adj,
     let w' := snd (get LS now' ck adj w) in
     localStorage w' = localStorage w \/
     localStorage w' = table_remove (toKey ck) (localStorage w) \/
     exists k text o',
       table_get k (localStorage w) = Some text /\
       JSON_parse text = ParsedEntry o' /\
       localStorage w' =
       table_set (toKey ck)
         (JSON_stringify
            (mkWrapped (refreshOnly (p_refresh_token (body o'))) (expiresAt o')))
         (localStorage w)) /\
  (forall now' ck adj i o',
     nth_error (heap w) i = Some o' ->
     exists o'', nth_error (heap (snd (get Mem now' ck adj w))) i = Some o'' /\
                 expiresAt o'' = expiresAt o').
Proof.
  intros key o. split; [|split; [|split]].
  - eexists. split; [apply set_LS_run|]. cbn [localStorage]. split.
    + apply table_get_set_same.
    + intros k N. now apply table_get_set_other.
  - eexists. exists (List.length (heap w)). split; [apply set_Mem_run|].
    cbn [cache heap]. split; [apply table_get_set_same|]. split.
    + apply nth_error_alloc.
    + intros k N. now apply table_get_set_other.
  - intros now' ck adj. apply get_LS_store.
  - intros now' ck adj i o'. apply get_Mem_heap.
Qed.

(** *** C4: the store after a read of an expired entry *)

(** C4 fails on the code when the expired entry was found under a
    stored key [k] other than the requested one: the write-back and the
    removal go to the requested key, so the durable store still holds the
    expired entry, in full, under [k]; with a refresh token the remnant is
    stored under the requested key, without one the requested key is
    removed. *)
Theorem CacheManager_get_expired_other_key now ck adj w (k text : string) o :
  findExistingCacheKey (fromKey (toKey ck)) (table_keys (localStorage w))
  = Ok (Some k) ->
  k <> toKey ck ->
  table_get k (localStorage w) = Some text ->
  text <> "" ->
  JSON_parse text = ParsedEntry o ->
  (expiresAt o - adj < nowSeconds now)%Z ->
  let w' := snd (get LS now ck adj w) in
  table_get k (localStorage w') = Some text /\
  (JS.truthy (p_refresh_token (body o)) = true ->
   localStorage w' =
   table_set (toKey ck) (JSON_stringify (remnant o)) (localStorage w)) /\
  (JS.truthy (p_refresh_token (body o)) = false ->
   localStorage w' = table_remove (toKey ck) (localStorage w)).
Proof.
  intros S N T Ne P E. cbn zeta.
  pose proof (LS_get_entry _ _ _ _ _ S T Ne P) as G.
  assert (D : nth_error (heap (mkWorld (heap w ++ [o]) (localStorage w) (cache w)))
                (List.length (heap w)) = Some o) by apply nth_error_alloc.
  destruct (JS.truthy (p_refresh_token (body o))) eqn:R.
  - rewrite (get_expired_refresh_LS _ _ _ _ _ _ _ G D E R). cbn [snd localStorage].
    split; [|split; [reflexivity | discriminate]].
    now rewrite table_get_set_other.
  - rewrite (get_expired_gone_LS _ _ _ _ _ _ _ G D E R). cbn [snd localStorage].
    split; [|split; [discriminate | reflexivity]].
    now rewrite table_get_remove_other.
Qed.

(** When the expired entry is found under the requested key itself,
    the durable store is left as C4 says: the remnant under that key, or
    the key removed, and every other key as it was. *)
Lemma get_LS_expired_same_key now ck adj w (text : string) o :
  findExistingCacheKey (fromKey (toKey ck)) (table_keys (localStorage w))
  = Ok (Some (toKey ck)) ->
  table_get (toKey ck) (localStorage w) = Some text ->
  text <> "" ->
  JSON_parse text = ParsedEntry o ->
  (expiresAt o - adj < nowSeconds now)%Z ->
  let w' := snd (get LS now ck adj w) in
  table_get (toKey ck) (localStorage w') =
    (if JS.truthy (p_refresh_token (body o))
     then Some (JSON_stringify (remnant o)) else None) /\
  forall k, k <> toKey ck ->
    table_get k (localStorage w') = table_get k (localStorage w).
Proof.
  intros S T Ne P E. cbn zeta.
  pose proof (LS_get_entry _ _ _ _ _ S T Ne P) as G.
  assert (D : nth_error (heap (mkWorld (heap w ++ [o]) (localStorage w) (cache w)))
                (List.length (heap w)) = Some o) by apply nth_error_alloc.
  destruct (JS.truthy (p_refresh_token (body o))) eqn:R.
  - rewrite (get_expired_refresh_LS _ _ _ _ _ _ _ G D E R). cbn [snd localStorage].
    split; [apply table_get_set_same|].
    intros k N. now apply table_get_set_other.
  - rewrite (get_expired_gone_LS _ _ _ _ _ _ _ G D E R). cbn [snd localStorage].
    split; [apply table_get_remove_same|].
    intros k N. now apply table_get_remove_other.
Qed.

(** An expired entry found under another key [k], on the ephemeral
    store: [k] stays bound to its object; with a refresh token the object
    is truncated in place and the requested key is bound to it as well. *)
Lemma get_Mem_expired_other_key now ck adj w (k : string) r o :
  findExistingCacheKey (fromKey (toKey ck)) (table_keys (cache w)) = Ok (Some k) ->
  k <> toKey ck ->
  table_get k (cache w) = Some r ->
  nth_error (heap w) r = Some o ->
  (expiresAt o - adj < nowSeconds now)%Z ->
  let w' := snd (get Mem now ck adj w) in
  table_get k (cache w') = Some r /\
  (JS.truthy (p_refresh_token (body o)) = true ->
   table_get (toKey ck) (cache w') = Some r /\
   nth_error (heap w') r = Some (remnant o)) /\
  (JS.truthy (p_refresh_token (body o)) = false ->
   cache w' = table_remove (toKey ck) (cache w)).
Proof.
  intros S N T D E. cbn zeta.
  assert (G : ic_get Mem (toKey ck) w = (Ok (Some r), w)).
  { rewrite Mem_get_unfold, S. cbn [JS.template]. now rewrite T. }
  destruct (JS.truthy (p_refresh_token (body o))) eqn:R.
  - rewrite (get_expired_refresh_Mem _ _ _ _ _ _ _ G D E R). cbn [snd cache heap].
    split; [|split; [intros _ | discriminate]].
    + now rewrite table_get_set_other.
    + split; [apply table_get_set_same|].
      rewrite nth_error_update_nth, D. reflexivity.
  - rewrite (get_expired_gone_Mem _ _ _ _ _ _ _ G D E R). cbn [snd cache].
    split; [|split; [discriminate | reflexivity]].
    now rewrite table_get_remove_other.
Qed.

(** *** C8: a stored text that is not JSON *)

(** C8, amended: when the text under the selected key is not empty and
    [JSON.parse] throws on it, the read throws, in the backend and in the
    cache manager, and the world is as before: the record is neither
    repaired nor removed. *)
Theorem LocalStorageCache_get_malformed (key k text : string) w :
  findExistingCacheKey (fromKey key) (table_keys (localStorage w)) = Ok (Some k) ->
  table_get k (localStorage w) = Some text ->
  text <> "" ->
  JSON_parse text = ParseError ->
  ic_get LS key w = (Throw SyntaxError, w) /\
  forall now ck adj, toKey ck = key -> get LS now ck adj w = (Throw SyntaxError, w).
Proof.
  intros S G N P.
  assert (R : ic_get LS key w = (Throw SyntaxError, w)).
  { rewrite LS_get_unfold, S, (selected_truthy _ _ _ S). cbn [JS.template].
    rewrite G. unfold LocalStorageCache_payload. rewrite truthy_Some.
    destruct (String.eqb_spec text ""); [contradiction|].
    cbn [negb JS.template]. now rewrite P. }
  split; [exact R|]. intros now ck adj <-. now apply get_throws.
Qed.

(** *** C9: the two backends select alike *)

(** C9, amended: the two backends run the same lookup, each on the
    enumeration of its own stored keys.  Over the same enumeration they
    get the same answer, a key or none, and each reads its store at that
    answer: the durable one parses the text under the selected key, the
    ephemeral one returns the object under it (under the property named
    ["undefined"] when no key is selected).  Over two enumerations of the
    same keys in different orders they throw alike and agree on whether a
    key is selected; the two selected keys are stored in both stores and
    both pass the test of the lookup, and they are the same key whenever
    a single stored key passes that test. *)
Theorem backends_select_alike (key : string) w :
  (table_keys (localStorage w) = table_keys (cache w) ->
   exists sel,
     findExistingCacheKey (fromKey key) (table_keys (localStorage w)) = sel /\
     findExistingCacheKey (fromKey key) (table_keys (cache w)) = sel /\
     ic_get LS key w =
     match sel with
     | Throw e => (Throw e, w)
     | Ok None => (Ok None, w)
     | Ok (Some k) =>
         LocalStorageCache_payload JSON_parse (table_get k (localStorage w)) w
     end /\
     ic_get Mem key w =
     match sel with
     | Throw e => (Throw e, w)
     | Ok None => (Ok (table_get "undefined" (cache w)), w)
     | Ok (Some k) => (Ok (table_get k (cache w)), w)
     end) /\
  (Permutation (table_keys (localStorage w)) (table_keys (cache w)) ->
   (forall e,
      findExistingCacheKey (fromKey key) (table_keys (localStorage w)) = Throw e <->
      findExistingCacheKey (fromKey key) (table_keys (cache w)) = Throw e) /\
   (findExistingCacheKey (fromKey key) (table_keys (localStorage w)) = Ok None <->
    findExistingCacheKey (fromKey key) (table_keys (cache w)) = Ok None) /\
   (forall k1,
      findExistingCacheKey (fromKey key) (table_keys (localStorage w)) = Ok (Some k1) ->
      exists k2,
        findExistingCacheKey (fromKey key) (table_keys (cache w)) = Ok (Some k2) /\
        In k1 (table_keys (cache w)) /\
        In k2 (table_keys (localStorage w)) /\
        matchesCacheKey (fromKey key) k1 = Ok true /\
        matchesCacheKey (fromKey key) k2 = Ok true /\
        ((forall k k',
            In k (table_keys (localStorage w)) ->
            In k' (table_keys (localStorage w)) ->
            matchesCacheKey (fromKey key) k = Ok true ->
            matchesCacheKey (fromKey key) k' = Ok true -> k = k') ->
         k1 = k2))).
Proof.
  split.
  - intros E.
    exists (findExistingCacheKey (fromKey key) (table_keys (localStorage w))).
    split; [reflexivity|]. split; [now rewrite E|]. split.
    + rewrite LS_get_unfold.
      destruct (findExistingCacheKey _ _) as [[k|]|e] eqn:S; try reflexivity.
      now rewrite (selected_truthy _ _ _ S).
    + rewrite Mem_get_unfold, <- E.
      now destruct (findExistingCacheKey _ _) as [[k|]|e].
  - intros P. split; [|split].
    + intros e. split.
      * now apply findExistingCacheKey_throw_perm.
      * apply findExistingCacheKey_throw_perm. now apply Permutation_sym.
    + split.
      * now apply findExistingCacheKey_none_perm.
      * apply findExistingCacheKey_none_perm. now apply Permutation_sym.
    + intros k1. now apply findExistingCacheKey_some_perm.
Qed.

(** *** C10: keys with an empty scope *)

Lemma payload_frame (json : option string) w wa :
  heap wa = heap w ->
  exists res w1 w1a,
    LocalStorageCache_payload JSON_parse json w = (res, w1) /\
    LocalStorageCache_payload JSON_parse json wa = (res, w1a) /\
    heap w1a = heap w1.
Proof.
  intros H. unfold LocalStorageCache_payload.
  destruct (negb (JS.truthy json)).
  - exists (Ok None), w, wa. now repeat split.
  - destruct (JSON_parse (JS.template json)) as [| |o].
    + exists (Throw SyntaxError), w, wa. now repeat split.
    + exists (Ok None), w, wa. now repeat split.
    + unfold bind, alloc, ret. rewrite H. do 3 eexists.
      split; [reflexivity|]. split; reflexivity.
Qed.

(** What [CacheManager.get] returns depends on what the backend's [get]
    yields and on the objects only. *)
Lemma get_fst_determined c now ck adj w wa res w1 w1a :
  c = LS \/ c = Mem ->
  ic_get c (toKey ck) w = (res, w1) ->
  ic_get c (toKey ck) wa = (res, w1a) ->
  heap w1a = heap w1 ->
  fst (get c now ck adj wa) = fst (get c now ck adj w).
Proof.
  intros Hc G Ga H. destruct res as [[r|]|e].
  - destruct (nth_error (heap w1) r) as [o|] eqn:D.
    + assert (Da : nth_error (heap w1a) r = Some o) by now rewrite H.
      destruct (Z.ltb_spec (expiresAt o - adj) (nowSeconds now)) as [E|E].
      * destruct (JS.truthy (p_refresh_token (body o))) eqn:R; destruct Hc as [-> | ->].
        -- now rewrite (get_expired_refresh_LS _ _ _ _ _ _ _ G D E R),
             (get_expired_refresh_LS _ _ _ _ _ _ _ Ga Da E R).
        -- now rewrite (get_expired_refresh_Mem _ _ _ _ _ _ _ G D E R),
             (get_expired_refresh_Mem _ _ _ _ _ _ _ Ga Da E R).
        -- now rewrite (get_expired_gone_LS _ _ _ _ _ _ _ G D E R),
             (get_expired_gone_LS _ _ _ _ _ _ _ Ga Da E R).
        -- now rewrite (get_expired_gone_Mem _ _ _ _ _ _ _ G D E R),
             (get_expired_gone_Mem _ _ _ _ _ _ _ Ga Da E R).
      * now rewrite (get_fresh _ _ _ _ _ _ _ _ G D E), (get_fresh _ _ _ _ _ _ _ _ Ga Da E).
    + unfold CacheManager_get, bind. rewrite G, Ga. unfold deref.
      rewrite H, D. reflexivity.
  - now rewrite (get_absent _ _ _ _ _ _ G), (get_absent _ _ _ _ _ _ Ga).
  - now rewrite (get_throws _ _ _ _ _ _ _ G), (get_throws _ _ _ _ _ _ _ Ga).
Qed.

Lemma findExistingCacheKey_without (requested : CacheKey) (k : string)
    (keys : list string) :
  scope (fromKey k) = Some "" ->
  findExistingCacheKey requested (filter (fun k' => negb (String.eqb k k')) keys)
  = findExistingCacheKey requested keys.
Proof.
  intros E. unfold findExistingCacheKey. rewrite filterR_filter_out; [reflexivity|].
  intros x Hx. apply negb_false_iff, String.eqb_eq in Hx as <-.
  now apply matchesCacheKey_empty_scope.
Qed.

Lemma empty_scope_not_selected (requested : CacheKey) (keys : list string)
    (k : string) :
  scope (fromKey k) = Some "" ->
  findExistingCacheKey requested keys <> Ok (Some k).
Proof.
  intros E H. apply findExistingCacheKey_Some in H as [_ H].
  rewrite (matchesCacheKey_empty_scope _ _ E) in H. discriminate H.
Qed.

(** C10: a stored key whose scope component is the empty string is
    never the key that the lookup returns, whatever is requested and
    whatever else is stored; and on either backend [CacheManager.get]
    returns what it would return were that key not stored. *)
Theorem empty_scope_never_selected (k : string) :
  scope (fromKey k) = Some "" ->
  (forall (requested : CacheKey) (keys : list string),
     findExistingCacheKey requested keys <> Ok (Some k)) /\
  (forall c now ck adj w,
     c = LS \/ c = Mem ->
     fst (get c now ck adj (without_key k w)) = fst (get c now ck adj w)).
Proof.
  intros E. split.
  - intros requested keys. now apply empty_scope_not_selected.
  - intros c now ck adj w Hc.
    destruct (ic_get c (toKey ck) w) as [res w1] eqn:G.
    destruct Hc as [-> | ->].
    + rewrite LS_get_unfold in G.
      destruct (ic_get LS (toKey ck) (without_key k w)) as [resa w1a] eqn:Ga.
      rewrite LS_get_unfold in Ga. cbn [without_key localStorage] in Ga.
      rewrite table_keys_remove, (findExistingCacheKey_without _ _ _ E) in Ga.
      destruct (findExistingCacheKey _ _) as [sel|e] eqn:S.
      * assert (J : (if JS.truthy sel
                     then table_get (JS.template sel) (table_remove k (localStorage w))
                     else sel)
                    = (if JS.truthy sel
                       then table_get (JS.template sel) (localStorage w)
                       else sel)).
        { destruct (JS.truthy sel); [|reflexivity].
          destruct sel as [k'|]; cbn [JS.template].
          - apply table_get_remove_other. intros ->.
            now apply (empty_scope_not_selected _ _ _ E S).
          - apply table_get_remove_other. intros <-. discriminate E. }
        rewrite J in Ga.
        destruct (payload_frame
                    (if JS.truthy sel
                     then table_get (JS.template sel) (localStorage w) else sel)
                    w (without_key k w) eq_refl)
          as (res' & w1' & w1a' & P & Pa & H).
        rewrite P in G. rewrite Pa in Ga.
        injection G as <- <-. injection Ga as <- <-.
        apply (get_fst_determined LS now ck adj w (without_key k w) res' w1' w1a');
          [now left | | | exact H]; rewrite LS_get_unfold.
        -- now rewrite S.
        -- cbn [without_key localStorage].
           now rewrite table_keys_remove, (findExistingCacheKey_without _ _ _ E), S, J.
      * injection G as <- <-. injection Ga as <- <-.
        apply (get_fst_determined LS now ck adj w (without_key k w) (Throw e) w
                 (without_key k w)); [now left | | | reflexivity]; rewrite LS_get_unfold.
        -- now rewrite S.
        -- cbn [without_key localStorage].
           now rewrite table_keys_remove, (findExistingCacheKey_without _ _ _ E), S.
    + rewrite Mem_get_unfold in G.
      assert (Ga : ic_get Mem (toKey ck) (without_key k w) = (res, without_key k w)).
      { rewrite Mem_get_unfold. cbn [without_key cache].
        rewrite table_keys_remove, (findExistingCacheKey_without _ _ _ E).
        destruct (findExistingCacheKey _ _) as [sel|e] eqn:S.
        - injection G as <- <-. f_equal. f_equal.
          destruct sel as [k'|]; cbn [JS.template].
          + apply table_get_remove_other. intros ->.
            now apply (empty_scope_not_selected _ _ _ E S).
          + apply table_get_remove_other. intros <-. discriminate E.
        - now injection G as <- <-. }
      assert (W : w1 = w).
      { destruct (findExistingCacheKey _ _); now injection G. }
      subst w1.
      apply (get_fst_determined Mem now ck adj w (without_key k w) res w
               (without_key k w)); [now right | | exact Ga | reflexivity].
      rewrite Mem_get_unfold. exact G.
Qed.

(** *** C6: [clear] on the durable store *)

(** The bindings that [clear] keeps. *)
Lemma table_get_filter_keys {V : Type} (keep : string -> bool)
    (t : list (string * V)) (k : string) :
  table_get k (filter (fun kv => keep (fst kv)) t) =
  if keep k then table_get k t else None.
Proof.
  induction t as [|[k0 v0] t IH]; simpl.
  - now destruct (keep k).
  - destruct (keep k0) eqn:K0; simpl.
    + destruct (String.eqb_spec k k0) as [->|N]; [now rewrite K0 | exact IH].
    + destruct (String.eqb_spec k k0) as [->|N]; [now rewrite IH, K0 | exact IH].
Qed.

Lemma table_keys_app {V : Type} (t1 t2 : list (string * V)) :
  table_keys (t1 ++ t2) = (table_keys t1 ++ table_keys t2)%list.
Proof. apply map_app. Qed.

(** The loop, with [l1] still to visit and [l2] already visited. *)
Lemma clear_loop_run (l1 l2 : list (string * string))
    (h : list wrapped) (m : list (string * nat)) :
  table_wf (l1 ++ l2) ->
  LocalStorageCache_clear_loop (List.length l1) (mkWorld h (l1 ++ l2) m) =
  (Ok tt,
   mkWorld h
     (filter (fun kv => negb (JS.startsWith keyPrefix (fst kv))) l1 ++ l2) m).
Proof.
  revert l2. induction l1 as [|[k v] l IH] using rev_ind; intros l2 WF.
  - reflexivity.
  - rewrite length_app, Nat.add_1_r. cbn [LocalStorageCache_clear_loop localStorage].
    rewrite <- app_assoc in *. cbn [app] in *.
    assert (K : nth_error (table_keys (l ++ (k, v) :: l2)) (List.length l) = Some k).
    { rewrite table_keys_app, nth_error_app2 by (unfold table_keys; rewrite length_map; lia).
      unfold table_keys. rewrite length_map, Nat.sub_diag. reflexivity. }
    rewrite K. rewrite filter_app. cbn [filter fst].
    destruct (JS.startsWith keyPrefix k) eqn:P; cbn [negb].
    + unfold bind, with_localStorage. cbn [heap localStorage cache].
      unfold table_wf in WF. rewrite table_keys_app in WF. cbn in WF.
      pose proof (NoDup_remove_1 _ _ _ WF) as WF1.
      pose proof (NoDup_remove_2 _ _ _ WF) as WF2.
      assert (R : table_remove k (l ++ (k, v) :: l2) = (l ++ l2)%list).
      { rewrite table_remove_app. cbn [table_remove filter fst].
        rewrite String.eqb_refl. cbn [negb].
        fold (table_remove k l2). fold (table_remove k l).
        rewrite !table_remove_absent; [reflexivity | |];
          intros I; apply WF2, in_or_app; tauto. }
      rewrite R, IH.
      * now rewrite app_nil_r.
      * unfold table_wf. now rewrite table_keys_app.
    + rewrite IH by exact WF. now rewrite <- app_assoc.
Qed.

(** C6: on a store whose keys are distinct, [clear] of the durable
    backend does not throw; it leaves exactly the bindings whose key does
    not start with the namespace prefix, in their order and with their
    values, and touches nothing else. *)
Theorem LocalStorageCache_clear_removes_prefixed w :
  table_wf (localStorage w) ->
  exists w',
    ic_clear LS w = (Ok tt, w') /\
    heap w' = heap w /\ cache w' = cache w /\
    localStorage w' =
    filter (fun kv => negb (JS.startsWith keyPrefix (fst kv))) (localStorage w) /\
    (forall k, JS.startsWith keyPrefix k = true ->
       table_get k (localStorage w') = None) /\
    (forall k, JS.startsWith keyPrefix k = false ->
       table_get k (localStorage w') = table_get k (localStorage w)).
Proof.
  intros WF. destruct w as [h ls m]. cbn [localStorage heap cache] in *.
  eexists. split.
  - cbn [ic_clear LocalStorageCache]. unfold LocalStorageCache_clear.
    cbn [localStorage].
    rewrite <- (app_nil_r ls) at 2. rewrite clear_loop_run by now rewrite app_nil_r.
    rewrite app_nil_r. reflexivity.
  - cbn [heap cache localStorage]. repeat split.
    + intros k P.
      rewrite (table_get_filter_keys (fun k => negb (JS.startsWith keyPrefix k))).
      now rewrite P.
    + intros k P.
      rewrite (table_get_filter_keys (fun k => negb (JS.startsWith keyPrefix k))).
      now rewrite P.
Qed.

End CacheProperties.

(** ** The token exchange request builder *)

Section ApiProperties.
Context {GrantParams Auth0Client Worker Response : Type}.
Variable DEFAULT_AUTH0_CLIENT : Auth0Client.
Variable DEFAULT_TOKEN_PATH : string.
Variable createQueryParams : GrantParams -> string.
Variable JSON_stringify_params : GrantParams -> string.
Variable JSON_stringify_client : Auth0Client -> string.
Variable btoa : string -> string.
Variable getJSON :
  string -> option Z -> string -> string -> FetchOptions ->
  option Worker -> option bool -> Response.

(** C7: [oauthToken] hands to the transport a request that is a
    function of the configuration alone: method [POST]; target
    [baseUrl + "/" + tokenPath], the fixed path standing in for a missing
    [tokenPath]; as body the form encoding of the grant parameters when
    [useFormData] is set and their JSON text otherwise, with the matching
    [Content-Type]; and an [Auth0-Client] header, the base64 of the JSON
    text of the client metadata, exactly when [disableAuth0Client] is not
    set.  There is no other header. *)
Theorem oauthToken_request_description
    (o : @TokenEndpointOptions GrantParams Auth0Client) (worker : option Worker) :
  exists req : FetchOptions,
    oauthToken DEFAULT_AUTH0_CLIENT DEFAULT_TOKEN_PATH createQueryParams
      JSON_stringify_params JSON_stringify_client btoa getJSON o worker
    = getJSON
        (baseUrl o ++ "/" ++
         match tokenPath o with Some p => p | None => DEFAULT_TOKEN_PATH end)
        (timeout o)
        (match token_audience o with
         | Some EmptyString | None => "default"
         | Some a => a
         end)
        (token_scope o) req worker (useFormData o) /\
    method req = "POST" /\
    fetch_body req =
      (if flag (useFormData o) then createQueryParams (options o)
       else JSON_stringify_params (options o)) /\
    table_get "Content-Type" (headers req) =
      Some (if flag (useFormData o) then "application/x-www-form-urlencoded"
            else "application/json") /\
    table_get "Auth0-Client" (headers req) =
      (if flag (disableAuth0Client o) then None
       else Some (btoa (JSON_stringify_client
                          match auth0Client o with
                          | Some c => c
                          | None => DEFAULT_AUTH0_CLIENT
                          end))) /\
    (forall h, In h (table_keys (headers req)) ->
       h = "Content-Type" \/ h = "Auth0-Client").
Proof.
  exists (oauthToken_request DEFAULT_AUTH0_CLIENT createQueryParams
            JSON_stringify_params JSON_stringify_client btoa o).
  split; [|split; [|split; [|split; [|split]]]].
  - unfold oauthToken, oauthToken_url, tokenPath_or_default. f_equal.
    destruct (token_audience o) as [[|ch a]|]; reflexivity.
  - reflexivity.
  - reflexivity.
  - cbn [oauthToken_request headers]. unfold oauthToken_headers.
    destruct (flag (disableAuth0Client o)); reflexivity.
  - cbn [oauthToken_request headers]. unfold oauthToken_headers.
    destruct (flag (disableAuth0Client o)); reflexivity.
  - cbn [oauthToken_request headers]. unfold oauthToken_headers.
    destruct (flag (disableAuth0Client o)); cbn; intros h H;
      repeat (destruct H as [<-|H]; [tauto|]); contradiction.
Qed.

End ApiProperties.

(** ** The properties on the concrete instance *)

Example split_delimiter : JS.split "::" "a::b::::c" = ["a"; "b"; ""; "c"].
Proof. reflexivity. Qed.

Example split_overlap : JS.split "::" "a:::b" = ["a"; ":b"].
Proof. reflexivity. Qed.

Example split_empty : JS.split " " "" = [""].
Proof. reflexivity. Qed.

Example split_spaces : JS.split " " "a  b " = ["a"; ""; "b"; ""].
Proof. reflexivity. Qed.

Example fromKey_short : fromKey "a::b" = mkCacheKey "a" (Some "b") None None.
Proof. reflexivity. Qed.

Example toKey_undefined :
  toKey (fromKey "a::b") = "a::b::undefined::undefined".
Proof. reflexivity. Qed.

(** Stored under ["openid profile"]: a query for ["openid"] finds the
    key, a query for ["openid email"] finds none. *)
Example lookup_openid :
  findExistingCacheKey
    (mkCacheKey keyPrefix (Some "C1") (Some "A1") (Some "openid"))
    ["@@auth0spajs@@::C1::A1::openid profile"]
  = Ok (Some "@@auth0spajs@@::C1::A1::openid profile") /\
  findExistingCacheKey
    (mkCacheKey keyPrefix (Some "C1") (Some "A1") (Some "openid email"))
    ["@@auth0spajs@@::C1::A1::openid profile"]
  = Ok None.
Proof. split; reflexivity. Qed.

(** A lookup with an [undefined] scope throws as soon as a stored key
    has a scope. *)
Example lookup_undefined_scope :
  findExistingCacheKey (fromKey "@@auth0spajs@@::C1::A1")
    ["@@auth0spajs@@::C1::A1::openid"]
  = Throw TypeError.
Proof. reflexivity. Qed.

(** [expires_in] is 3600 and [claims.exp] is 60 seconds away: the
    tighter bound wins. *)
Example expiresAt_tighter :
  expiresAt (wrapCacheEntry Example.exp 40000 Example.entry) = (40 + 60)%Z.
Proof. reflexivity. Qed.

(** On the ephemeral store a read of an expired entry through a
    narrower scope truncates the stored object in place and binds the
    requested key to the same object. *)
Example get_Mem_aliases :
  snd (CacheManager_get Example.Mem 101000 Example.read_key 0 Example.after_set_Mem)
  = mkWorld [remnant Example.stored] []
      [("@@auth0spajs@@::C1::A1::read write", 0);
       ("@@auth0spajs@@::C1::A1::read", 0)].
Proof. reflexivity. Qed.

Lemma CacheManager_get_result_witness :
  fst (CacheManager_get Example.LS 100000 Example.own_key 0 Example.after_set_LS)
  = Ok (Some (body Example.stored)) /\
  fst (CacheManager_get Example.LS 101000 Example.own_key 0 Example.after_set_LS)
  = Ok (Some (refreshOnly (Some "rt"))) /\
  fst (CacheManager_get Example.LS 101000 Example.own_key 0
         Example.after_set_no_refresh_LS)
  = Ok None.
Proof.
  split; [|split].
  - refine (proj1 (CacheManager_get_result Example.stringify Example.parse
                     Example.LS 100000 Example.own_key 0 Example.after_set_LS
                     _ 1 Example.stored (or_introl eq_refl) eq_refl eq_refl) _).
    vm_compute. discriminate.
  - refine (proj1 (proj2 (CacheManager_get_result Example.stringify Example.parse
                     Example.LS 101000 Example.own_key 0 Example.after_set_LS
                     _ 1 Example.stored (or_introl eq_refl) eq_refl eq_refl)) _ _).
    + reflexivity.
    + reflexivity.
  - refine (proj2 (proj2 (CacheManager_get_result Example.stringify Example.parse
                     Example.LS 101000 Example.own_key 0
                     Example.after_set_no_refresh_LS
                     _ 1 Example.stored_no_refresh
                     (or_introl eq_refl) eq_refl eq_refl)) _ _).
    + reflexivity.
    + reflexivity.
Defined.

(** C8, as the specification states it, fails on the empty text: it is
    not JSON, and the read yields nothing instead of throwing. *)
Lemma LocalStorageCache_get_counterexample :
  let key := "@@auth0spajs@@::C1::A1::read" in
  let w : @World Z unit := mkWorld [] [(key, "")] [] in
  findExistingCacheKey (fromKey key) (table_keys (localStorage w)) = Ok (Some key) /\
  table_get key (localStorage w) = Some "" /\
  Example.parse "" = ParseError /\
  ic_get Example.LS key w = (Ok None, w).
Proof. repeat split. Qed.

Lemma LocalStorageCache_get_malformed_witness :
  let key := "@@auth0spajs@@::C1::A1::read" in
  let w : @World Z unit := mkWorld [] [(key, "{body:")] [] in
  ic_get Example.LS key w = (Throw SyntaxError, w).
Proof.
  refine (proj1 (LocalStorageCache_get_malformed Example.stringify Example.parse
                   "@@auth0spajs@@::C1::A1::read" "@@auth0spajs@@::C1::A1::read"
                   "{body:"
                   (mkWorld [] [("@@auth0spajs@@::C1::A1::read", "{body:")] [])
                   eq_refl eq_refl _ eq_refl)).
  discriminate.
Defined.

Lemma CacheManager_get_expired_other_key_witness :
  let k := "@@auth0spajs@@::C1::A1::read write" in
  (table_get k (localStorage
     (snd (CacheManager_get Example.LS 101000 Example.read_key 0
             Example.after_set_LS))) = Some "{entry}") /\
  (table_get k (localStorage
     (snd (CacheManager_get Example.LS 101000 Example.read_key 0
             Example.after_set_no_refresh_LS)))
   = Some "{entry without refresh_token}").
Proof.
  split.
  - refine (proj1 (CacheManager_get_expired_other_key Example.stringify Example.parse
                     101000 Example.read_key 0 Example.after_set_LS
                     "@@auth0spajs@@::C1::A1::read write" "{entry}" Example.stored
                     eq_refl _ eq_refl _ eq_refl eq_refl)); discriminate.
  - refine (proj1 (CacheManager_get_expired_other_key Example.stringify Example.parse
                     101000 Example.read_key 0 Example.after_set_no_refresh_LS
                     "@@auth0spajs@@::C1::A1::read write"
                     "{entry without refresh_token}" Example.stored_no_refresh
                     eq_refl _ eq_refl _ eq_refl eq_refl)); discriminate.
Defined.

Lemma CacheManager_set_stores_witness :
  table_get "other" (localStorage Example.after_set_LS) = None /\
  exists o,
    nth_error
      (heap (snd (CacheManager_get Example.Mem 101000 Example.own_key 0
                    Example.after_set_Mem))) 0 = Some o /\
    expiresAt o = expiresAt Example.stored.
Proof.
  split.
  - destruct (proj1 (CacheManager_set_stores Example.exp Example.stringify
                       Example.parse 40000 Example.entry empty_world))
      as (w' & E & _ & F).
    unfold Example.after_set_LS, Example.LS. rewrite E. cbn [snd].
    rewrite F; [reflexivity | discriminate].
  - apply (proj2 (proj2 (proj2
             (CacheManager_set_stores Example.exp Example.stringify Example.parse
                40000 Example.entry Example.after_set_Mem)))
             101000%Z Example.own_key 0%Z 0%nat Example.stored).
    reflexivity.
Defined.

Lemma LocalStorageCache_clear_removes_prefixed_witness :
  let w : @World Z unit :=
    mkWorld []
      [("@@auth0spajs@@::C1::A1::read", "{entry}"); ("theme", "dark");
       ("@@auth0spajs@@::C2::A1::read", "{entry}")] [] in
  exists w',
    ic_clear Example.LS w = (Ok tt, w') /\
    localStorage w' = [("theme", "dark")].
Proof.
  intros w.
  assert (WF : table_wf (localStorage w)).
  { unfold table_wf. cbn. repeat constructor; cbn; intuition discriminate. }
  destruct (LocalStorageCache_clear_removes_prefixed Example.stringify
              Example.parse w WF) as (w' & E & _ & _ & L & _).
  exists w'. split; [exact E | exact L].
Defined.

(** C9, as the specification states it, fails when several stored keys
    serve the request: the two stores hold the same two keys, the durable
    one enumerates ["...::read"] first and the ephemeral one
    ["...::read write"] first, and each backend selects the key its own
    enumeration lists first. *)
Lemma backends_select_counterexample :
  let k1 := "@@auth0spajs@@::C1::A1::read" in
  let k2 := "@@auth0spajs@@::C1::A1::read write" in
  let w : @World Z unit :=
    mkWorld [Example.stored] [(k1, "{entry}"); (k2, "{entry}")] [(k2, 0); (k1, 0)] in
  Permutation (table_keys (localStorage w)) (table_keys (cache w)) /\
  (forall k, In k (table_keys (localStorage w)) <-> In k (table_keys (cache w))) /\
  findExistingCacheKey (fromKey (toKey Example.read_key))
    (table_keys (localStorage w)) = Ok (Some k1) /\
  findExistingCacheKey (fromKey (toKey Example.read_key))
    (table_keys (cache w)) = Ok (Some k2) /\
  k1 <> k2.
Proof.
  cbn zeta. split; [apply perm_swap|]. split; [intros k; cbn; tauto|].
  repeat split. discriminate.
Qed.

Lemma backends_select_alike_witness :
  let k := "@@auth0spajs@@::C1::A1::read write" in
  let w : @World Z unit :=
    mkWorld [Example.stored] [(k, "{entry}")] [(k, 0)] in
  let w' : @World Z unit :=
    mkWorld [Example.stored] [(k, "{entry}"); ("theme", "dark")]
      [("theme", 0); (k, 0)] in
  (exists sel,
     findExistingCacheKey (fromKey (toKey Example.read_key))
       (table_keys (localStorage w)) = sel /\
     findExistingCacheKey (fromKey (toKey Example.read_key))
       (table_keys (cache w)) = sel /\
     sel = Ok (Some k)) /\
  findExistingCacheKey (fromKey (toKey Example.read_key))
    (table_keys (cache w')) = Ok (Some k).
Proof.
  intros k w w'. split.
  - destruct (proj1 (backends_select_alike Example.stringify Example.parse
                       (toKey Example.read_key) w) eq_refl)
      as (sel & E1 & E2 & _).
    exists sel. split; [exact E1|]. split; [exact E2|].
    rewrite <- E1. reflexivity.
  - destruct (proj2 (backends_select_alike Example.stringify Example.parse
                       (toKey Example.read_key) w') (perm_swap _ _ _))
      as (_ & _ & S).
    destruct (S k eq_refl) as (k2 & E & _ & _ & _ & _ & U).
    rewrite E. f_equal. f_equal. symmetry. apply U.
    intros x y Hx Hy Mx My. cbn in Hx, Hy.
    destruct Hx as [<-|[<-|[]]]; destruct Hy as [<-|[<-|[]]];
      try reflexivity; vm_compute in Mx, My; discriminate.
Defined.

Lemma empty_scope_never_selected_witness :
  let k := "@@auth0spajs@@::C1::A1::" in
  let requested := mkCacheKey keyPrefix (Some "C1") (Some "A1") (Some "") in
  scope (fromKey k) = Some "" /\
  findExistingCacheKey requested [k] <> Ok (Some k) /\
  fst (CacheManager_get Example.LS 0 requested 0
         (without_key k (mkWorld [] [(k, "{entry}")] [])))
  = fst (CacheManager_get Example.LS 0 requested 0
           (mkWorld [] [(k, "{entry}")] [])).
Proof.
  intros k requested. split; [reflexivity|]. split.
  - apply (proj1 (empty_scope_never_selected Example.stringify Example.parse
                    k eq_refl)).
  - apply (proj2 (empty_scope_never_selected Example.stringify Example.parse
                    k eq_refl)).
    now left.
Defined.

(** * Further properties of the cache code *)

(** ** [split] finds as many separators as can be found *)

Lemma split_from_drop (sep : string) (n : nat) (s : string) :
  JS.split_from sep n s = JS.split sep (JS.drop n s).
Proof.
  revert n. induction s as [|c s IH]; intros [|n]; try reflexivity.
  cbn [JS.split_from JS.drop]. apply IH.
Qed.

Lemma drop_nil (n : nat) : JS.drop n "" = "".
Proof. now destruct n. Qed.

Lemma drop_drop (a b : nat) (s : string) :
  JS.drop a (JS.drop b s) = JS.drop (b + a) s.
Proof.
  revert s. induction b as [|b IH]; intros s; [reflexivity|].
  destruct s as [|c s]; cbn [JS.drop Nat.add].
  - apply drop_nil.
  - apply IH.
Qed.

Lemma length_drop_le (n : nat) (s : string) :
  String.length (JS.drop n s) <= String.length s.
Proof.
  revert s. induction n as [|n IH]; intros [|c s]; cbn [JS.drop String.length];
    try lia. specialize (IH s). lia.
Qed.

Section SplitCount.
Variables (c0 : ascii) (sep0 : string).
Local Abbreviation sep := (String c0 sep0).
Local Abbreviation parts s := (List.length (JS.split sep s)).

Lemma parts_match (c : ascii) (s : string) :
  JS.startsWith sep (String c s) = true ->
  parts (String c s) = S (parts (JS.drop (String.length sep0) s)).
Proof.
  intros H. unfold JS.split. cbn [JS.split_from].
  rewrite H. cbn [List.length]. f_equal.
  rewrite split_from_drop. cbn [String.length].
  now rewrite Nat.sub_1_r, Nat.pred_succ.
Qed.

Lemma parts_no_match (c : ascii) (s : string) :
  JS.startsWith sep (String c s) = false ->
  parts (String c s) = parts s.
Proof.
  intros H. rewrite (split_step _ _ _ H).
  destruct (JS.split sep s) eqn:E; [|reflexivity].
  now apply split_from_nonempty in E.
Qed.

(** Starting the scan later never finds more parts, and one separator
    less costs one part at most. *)
Lemma parts_greedy (n : nat) (s : string) :
  String.length s < n ->
  (forall j, parts (JS.drop j s) <= parts s) /\
  parts s <= S (parts (JS.drop (S (String.length sep0)) s)).
Proof.
  revert s. induction n as [|n IH]; intros s Hn; [lia|].
  destruct s as [|c s].
  - split; [intros j; now rewrite drop_nil | rewrite drop_nil; lia].
  - cbn [String.length] in Hn.
    assert (Hs : String.length s < n) by lia.
    destruct (IH s Hs) as [Ms Bs].
    assert (Hd : String.length (JS.drop (String.length sep0) s) < n).
    { pose proof (length_drop_le (String.length sep0) s). lia. }
    destruct (IH _ Hd) as [Md _].
    specialize (Md 1). rewrite drop_drop, Nat.add_1_r in Md.
    assert (M1 : parts s <= parts (String c s)).
    { destruct (JS.startsWith sep (String c s)) eqn:E.
      - rewrite (parts_match _ _ E). lia.
      - rewrite (parts_no_match _ _ E). lia. }
    split.
    + intros [|j]; [reflexivity|]. cbn [JS.drop]. specialize (Ms j). lia.
    + cbn [JS.drop].
      destruct (JS.startsWith sep (String c s)) eqn:E.
      * rewrite (parts_match _ _ E). lia.
      * rewrite (parts_no_match _ _ E). lia.
Qed.

Lemma parts_tail (c : ascii) (s : string) : parts s <= parts (String c s).
Proof.
  destruct (parts_greedy (S (S (String.length s))) (String c s)) as [M _].
  - cbn [String.length]. lia.
  - apply (M 1).
Qed.

(** A separator written into a string gives one more part. *)
Lemma parts_app_sep (x y : string) : S (parts y) <= parts (x ++ sep ++ y).
Proof.
  induction x as [|c x IH].
  - change ("" ++ sep ++ y) with (sep ++ y). rewrite (split_sep_head c0 sep0 y).
    cbn [List.length]. reflexivity.
  - change (String c x ++ sep ++ y) with (String c (x ++ sep ++ y)).
    pose proof (parts_tail c (x ++ sep ++ y)). lia.
Qed.

Lemma parts_pos (s : string) : 1 <= parts s.
Proof.
  unfold JS.split.
  destruct (JS.split_from sep 0 s) eqn:E; [|cbn; lia].
  now apply split_from_nonempty in E.
Qed.

End SplitCount.

(** ** Keys made by [toKey] *)

Lemma toKey_parts (ck : CacheKey) : 4 <= List.length (JS.split "::" (toKey ck)).
Proof.
  unfold toKey.
  pose proof (parts_app_sep ":"%char ":" (prefix ck)
                (JS.template (client_id ck) ++ "::" ++
                 JS.template (audience ck) ++ "::" ++ JS.template (scope ck))) as H1.
  pose proof (parts_app_sep ":"%char ":" (JS.template (client_id ck))
                (JS.template (audience ck) ++ "::" ++ JS.template (scope ck))) as H2.
  pose proof (parts_app_sep ":"%char ":" (JS.template (audience ck))
                (JS.template (scope ck))) as H3.
  pose proof (parts_pos ":"%char ":" (JS.template (scope ck))) as H4.
  lia.
Qed.

(** Whatever the components are, a key made by [toKey] parses into a
    cache key all of whose fields are strings: none is [undefined]. *)
Theorem fromKey_toKey_defined (ck : CacheKey) :
  exists c a s,
    client_id (fromKey (toKey ck)) = Some c /\
    audience (fromKey (toKey ck)) = Some a /\
    scope (fromKey (toKey ck)) = Some s.
Proof.
  pose proof (toKey_parts ck) as H. unfold fromKey.
  destruct (JS.split "::" (toKey ck)) as [|p [|c [|a [|s l]]]];
    cbn [List.length] in H; try lia.
  now exists c, a, s.
Qed.

Lemma string_length_app (a b : string) :
  String.length (a ++ b) = String.length a + String.length b.
Proof. induction a as [|c a IH]; cbn; [reflexivity | now rewrite IH]. Qed.

(** The round trip through [fromKey] and [toKey] gives a key back
    exactly when the key has four parts: with fewer parts the missing
    fields print as ["undefined"], with more the extra parts are lost. *)
Theorem toKey_fromKey_iff (k : string) :
  toKey (fromKey k) = k <-> List.length (JS.split "::" k) = 4.
Proof.
  split.
  - intros E. pose proof (toKey_parts (fromKey k)) as H. rewrite E in H.
    pose proof (join_split ":"%char ":" k) as J.
    unfold toKey, fromKey in E.
    destruct (JS.split "::" k) as [|p [|c [|a [|s [|x l]]]]];
      cbn [List.length] in H; try lia; [reflexivity|].
    exfalso. cbn [prefix client_id audience scope nth nth_error JS.template] in E.
    rewrite <- J in E. unfold JS.join in E.
    rewrite !concat_cons_nonempty in E by discriminate.
    apply (f_equal String.length) in E.
    rewrite !string_length_app in E. cbn [String.length] in E. lia.
  - intros Hlen. pose proof (join_split ":"%char ":" k) as J.
    unfold fromKey, toKey.
    destruct (JS.split "::" k) as [|p [|c [|a [|s [|x l]]]]]; try discriminate Hlen.
    exact J.
Qed.

(** ** When the lookup throws *)

(** [findExistingCacheKey] throws in one situation only: the requested
    scope is [undefined] and some stored key has a non-empty scope; the
    exception is then a [TypeError], whatever the prefix, client and
    audience of that stored key are. *)
Theorem findExistingCacheKey_throws_iff (requested : CacheKey)
    (keys : list string) (e : Exn) :
  findExistingCacheKey requested keys = Throw e <->
  e = TypeError /\ scope requested = None /\
  exists k, In k keys /\ JS.truthy (scope (fromKey k)) = true.
Proof.
  unfold findExistingCacheKey. split.
  - destruct (filterR (matchesCacheKey requested) keys) as [r|e'] eqn:F;
      [discriminate|]. intros [= ->].
    apply filterR_throws in F as (k & Hk & Fk).
    apply matchesCacheKey_throws in Fk as (-> & N & T).
    repeat split; try assumption. now exists k.
  - intros (-> & N & k & Hk & T).
    rewrite (filterR_throws_one (matchesCacheKey requested) keys TypeError).
    + reflexivity.
    + intros x e' H. now apply matchesCacheKey_throws in H.
    + exists k. split; [exact Hk|]. now apply matchesCacheKey_throws.
Qed.

(** ** The requested scope as a set of tokens *)

Lemma find_ext_eq {A : Type} (g h : A -> bool) (l : list A) :
  (forall x, g x = h x) -> find g l = find h l.
Proof.
  intros H. induction l as [|x l IH]; simpl; [reflexivity|].
  now rewrite H, IH.
Qed.

Lemma Matches_narrow (c a : option string) (s1 s2 k : string) :
  (forall t, In t (JS.split " " s2) -> In t (JS.split " " s1)) ->
  Matches c a s1 k -> Matches c a s2 k.
Proof.
  intros Sub (P & C & A & st & E & N & H).
  repeat split; try assumption. exists st. repeat split; try assumption.
  intros t Ht. apply H, Sub, Ht.
Qed.

Lemma matchesb_same_tokens (c a : option string) (s1 s2 k : string) :
  (forall t, In t (JS.split " " s1) <-> In t (JS.split " " s2)) ->
  matchesb c a s1 k = matchesb c a s2 k.
Proof.
  intros H.
  destruct (matchesb c a s1 k) eqn:E1, (matchesb c a s2 k) eqn:E2;
    try reflexivity; exfalso.
  - apply matchesb_iff in E1.
    apply (Matches_narrow c a s1 s2 k) in E1; [|intros t; apply H].
    apply matchesb_iff in E1. congruence.
  - apply matchesb_iff in E2.
    apply (Matches_narrow c a s2 s1 k) in E2; [|intros t; apply H].
    apply matchesb_iff in E2. congruence.
Qed.

(** The order of the requested scope tokens and their repetition do not
    matter, and neither does the prefix of the requested key: two
    requests for the same client and audience whose scopes have the same
    tokens select the same stored key. *)
Theorem findExistingCacheKey_scope_set (p1 p2 : string) (c a : option string)
    (s1 s2 : string) (keys : list string) :
  (forall t, In t (JS.split " " s1) <-> In t (JS.split " " s2)) ->
  findExistingCacheKey (mkCacheKey p1 c a (Some s1)) keys
  = findExistingCacheKey (mkCacheKey p2 c a (Some s2)) keys.
Proof.
  intros H. rewrite !findExistingCacheKey_find. f_equal.
  apply find_ext_eq. intros k. now apply matchesb_same_tokens.
Qed.

Lemma findExistingCacheKey_scope_set_witness :
  findExistingCacheKey
    (mkCacheKey keyPrefix (Some "C1") (Some "A1") (Some "read write"))
    ["@@auth0spajs@@::C1::A1::write admin read"]
  = findExistingCacheKey
      (mkCacheKey "other" (Some "C1") (Some "A1") (Some "write read write"))
      ["@@auth0spajs@@::C1::A1::write admin read"].
Proof.
  apply findExistingCacheKey_scope_set.
  intros t. cbn. tauto.
Defined.

(** Asking for less never turns a hit into a miss: when a request is
    served by some stored key, every request for the same client and
    audience whose scope tokens are among the first request's tokens is
    served too. *)
Theorem findExistingCacheKey_narrow (p1 p2 : string) (c a : option string)
    (s1 s2 : string) (keys : list string) (k : string) :
  (forall t, In t (JS.split " " s2) -> In t (JS.split " " s1)) ->
  findExistingCacheKey (mkCacheKey p1 c a (Some s1)) keys = Ok (Some k) ->
  exists k', findExistingCacheKey (mkCacheKey p2 c a (Some s2)) keys = Ok (Some k').
Proof.
  intros Sub. rewrite !findExistingCacheKey_find. intros [= F].
  apply find_some in F as [Hk Mk].
  destruct (find (matchesb c a s2) keys) as [k'|] eqn:F2; [now exists k'|].
  exfalso. pose proof (find_none _ _ F2 k Hk) as N.
  apply matchesb_iff in Mk. apply (Matches_narrow c a s1 s2 k Sub) in Mk.
  apply matchesb_iff in Mk. congruence.
Qed.

Lemma findExistingCacheKey_narrow_witness :
  exists k',
    findExistingCacheKey
      (mkCacheKey keyPrefix (Some "C1") (Some "A1") (Some "read"))
      ["@@auth0spajs@@::C1::A1::read"; "@@auth0spajs@@::C1::A1::read write"]
    = Ok (Some k').
Proof.
  apply (findExistingCacheKey_narrow keyPrefix keyPrefix (Some "C1") (Some "A1")
           "read write" "read"
           ["@@auth0spajs@@::C1::A1::read"; "@@auth0spajs@@::C1::A1::read write"]
           "@@auth0spajs@@::C1::A1::read write").
  - cbn. tauto.
  - reflexivity.
Defined.

(** ** Tables: keys after an update *)

Section MoreTableProperties.
Context {V : Type}.
Implicit Types (t : list (string * V)) (k : string) (v : V).

Lemma table_keys_set t k v :
  table_keys (table_set k v t) =
  if existsb (String.eqb k) (table_keys t)
  then table_keys t else (table_keys t ++ [k])%list.
Proof.
  induction t as [|[k0 v0] t IH]; cbn [table_set table_keys map fst existsb].
  - reflexivity.
  - destruct (String.eqb_spec k k0) as [->|N]; cbn [map fst orb].
    + reflexivity.
    + fold (table_keys (table_set k v t)). rewrite IH. fold (table_keys t).
      now destruct (existsb (String.eqb k) (table_keys t)).
Qed.

Lemma existsb_eqb_In (k : string) (l : list string) :
  existsb (String.eqb k) l = true <-> In k l.
Proof.
  rewrite existsb_exists. split.
  - intros (x & Hx & E). apply String.eqb_eq in E. now subst.
  - intros H. exists k. split; [exact H | apply String.eqb_refl].
Qed.

Lemma table_keys_set_In t k v k' :
  In k' (table_keys (table_set k v t)) <-> k' = k \/ In k' (table_keys t).
Proof.
  rewrite table_keys_set.
  destruct (existsb (String.eqb k) (table_keys t)) eqn:E.
  - apply existsb_eqb_In in E. split; [tauto|]. intros [->|H]; assumption.
  - rewrite in_app_iff. cbn. split; [intros [H|[<-|[]]]; tauto | intros [->|H]; tauto].
Qed.

Lemma table_wf_set t k v : table_wf t -> table_wf (table_set k v t).
Proof.
  unfold table_wf. intros WF. rewrite table_keys_set.
  destruct (existsb (String.eqb k) (table_keys t)) eqn:E; [exact WF|].
  apply NoDup_app; [exact WF | repeat constructor; intros [] |].
  intros x Hx [<-|[]].
  apply existsb_eqb_In in Hx. congruence.
Qed.

Lemma table_wf_remove t k : table_wf t -> table_wf (table_remove k t).
Proof.
  unfold table_wf. rewrite table_keys_remove. apply NoDup_filter.
Qed.

Lemma table_set_set t k v : table_set k v (table_set k v t) = table_set k v t.
Proof.
  induction t as [|[k0 v0] t IH]; cbn [table_set].
  - now rewrite String.eqb_refl.
  - destruct (String.eqb_spec k k0) as [->|N]; cbn [table_set].
    + now rewrite String.eqb_refl.
    + destruct (String.eqb_spec k k0); [contradiction|]. now rewrite IH.
Qed.

End MoreTableProperties.

Lemma find_unique (g : string -> bool) (l : list string) (key : string) :
  (forall k, In k l -> g k = true -> k = key) ->
  In key l -> g key = true -> find g l = Some key.
Proof.
  intros U I G. destruct (find g l) as [k|] eqn:F.
  - apply find_some in F as [Hk Gk]. f_equal. now apply U.
  - pose proof (find_none _ _ F key I). congruence.
Qed.

Lemma find_app_Some (g : string -> bool) (l l' : list string) (k : string) :
  find g l = Some k -> find g (l ++ l') = Some k.
Proof.
  induction l as [|x l IH]; simpl; [discriminate|].
  destruct (g x); [trivial | exact IH].
Qed.

Lemma startsWith_refl (s : string) : JS.startsWith s s = true.
Proof.
  induction s as [|c s IH]; [reflexivity|].
  now rewrite startsWith_cons, Ascii.eqb_refl, IH.
Qed.

(** The first part of a key is where the key starts. *)
Lemma prefix_fromKey_startsWith (k : string) :
  JS.startsWith (prefix (fromKey k)) k = true.
Proof.
  pose proof (join_split ":"%char ":" k) as J. unfold fromKey. cbn [prefix].
  destruct (JS.split "::" k) as [|h [|x l]].
  - apply startsWith_nil.
  - cbn in J. subst h. cbn [nth]. apply startsWith_refl.
  - unfold JS.join in J. rewrite concat_cons_nonempty in J by discriminate.
    cbn [nth]. rewrite <- J. apply startsWith_app.
Qed.

(** A key made from clean components and a scope that is not empty
    serves the request for exactly these components. *)
Lemma matchesb_own_key (c a s : string) :
  JS.includes "::" c = false -> JS.endsWithChar ":" c = false ->
  JS.includes "::" a = false -> JS.endsWithChar ":" a = false ->
  JS.includes "::" s = false -> s <> "" ->
  matchesb (Some c) (Some a) s
    (toKey (mkCacheKey keyPrefix (Some c) (Some a) (Some s))) = true.
Proof.
  intros Hc Ec Ha Ea Hs Ns. apply matchesb_iff. unfold Matches, fromKey.
  rewrite (split_toKey keyPrefix c a s) by (assumption || reflexivity).
  cbn [prefix client_id audience scope nth nth_error].
  repeat split. exists s. repeat split; [assumption | trivial].
Qed.

Lemma fromKey_own_key (c a s : string) :
  JS.includes "::" c = false -> JS.endsWithChar ":" c = false ->
  JS.includes "::" a = false -> JS.endsWithChar ":" a = false ->
  JS.includes "::" s = false ->
  fromKey (toKey (mkCacheKey keyPrefix (Some c) (Some a) (Some s)))
  = mkCacheKey keyPrefix (Some c) (Some a) (Some s).
Proof.
  intros Hc Ec Ha Ea Hs. unfold fromKey.
  now rewrite (split_toKey keyPrefix c a s) by (assumption || reflexivity).
Qed.

Lemma find_all_false {A : Type} (g : A -> bool) (l : list A) :
  (forall x, In x l -> g x = false) -> find g l = None.
Proof.
  intros H. induction l as [|x l IH]; simpl; [reflexivity|].
  rewrite (H x (or_introl eq_refl)). apply IH. intros y Hy. apply H. now right.
Qed.

(** The lookup for a key made by [toKey] never throws: it is the search
    for the first matching key. *)
Lemma lookup_toKey (ck : CacheKey) :
  exists c a s, forall keys,
    findExistingCacheKey (fromKey (toKey ck)) keys = Ok (find (matchesb c a s) keys).
Proof.
  pose proof (toKey_parts ck) as H.
  assert (S : exists s, scope (fromKey (toKey ck)) = Some s).
  { unfold fromKey.
    destruct (JS.split "::" (toKey ck)) as [|p [|c [|a [|s l]]]];
      cbn [List.length] in H; try lia.
    now exists s. }
  destruct S as [s S].
  destruct (fromKey (toKey ck)) as [p c' a' s'] eqn:F. cbn [scope] in S. subst s'.
  exists c', a', s. intros keys. apply findExistingCacheKey_find.
Qed.

(** ** Sequences of cache operations *)

Section MoreCacheProperties.
Context {IdToken User : Type}.
Variable claims_exp : IdToken -> Z.
Variable JSON_stringify : @WrappedCacheEntry IdToken User -> string.
Variable JSON_parse : string -> @Parsed IdToken User.

Local Abbreviation LS := (LocalStorageCache JSON_stringify JSON_parse).
Local Abbreviation Mem := (@InMemoryCache IdToken User).
Local Abbreviation Store := (@ICache IdToken User).
Local Abbreviation world := (@World IdToken User).
Local Abbreviation wrapped := (@WrappedCacheEntry IdToken User).
Local Abbreviation get := (@CacheManager_get IdToken User).

Implicit Types (c : Store) (w : world) (o : wrapped) (r : nat)
  (now adj : Z) (ck : CacheKey).

(** *** [set], then [get] *)

Lemma own_key_selected (cl au sc : string) (keys : list string) :
  JS.includes "::" cl = false -> JS.endsWithChar ":" cl = false ->
  JS.includes "::" au = false -> JS.endsWithChar ":" au = false ->
  JS.includes "::" sc = false -> sc <> "" ->
  (forall k, In k keys -> Matches (Some cl) (Some au) sc k ->
             k = toKey (mkCacheKey keyPrefix (Some cl) (Some au) (Some sc))) ->
  In (toKey (mkCacheKey keyPrefix (Some cl) (Some au) (Some sc))) keys ->
  findExistingCacheKey
    (fromKey (toKey (mkCacheKey keyPrefix (Some cl) (Some au) (Some sc)))) keys
  = Ok (Some (toKey (mkCacheKey keyPrefix (Some cl) (Some au) (Some sc)))).
Proof.
  intros Hc Ec Ha Ea Hs Ns U I.
  rewrite fromKey_own_key by assumption. rewrite findExistingCacheKey_find.
  f_equal. apply find_unique.
  - intros k Hk Mk. apply U; [exact Hk | now apply matchesb_iff].
  - exact I.
  - now apply matchesb_own_key.
Qed.

(** An entry written by [set] on the ephemeral backend is what a [get]
    for its own key returns, as long as it has not expired: the
    components of the key must be free of the delimiter, client id and
    audience must not end in a colon, the scope must not be empty, and no
    other stored key may serve the request. *)
Theorem CacheManager_set_get_Mem now now' adj (entry : @CacheEntry IdToken User) w :
  let requested :=
    newCacheKey_default
      (mkCacheKeyData (entry_audience entry) (entry_scope entry)
         (entry_client_id entry)) in
  JS.includes "::" (entry_client_id entry) = false ->
  JS.endsWithChar ":" (entry_client_id entry) = false ->
  JS.includes "::" (entry_audience entry) = false ->
  JS.endsWithChar ":" (entry_audience entry) = false ->
  JS.includes "::" (entry_scope entry) = false ->
  entry_scope entry <> "" ->
  (forall k, In k (table_keys (cache w)) ->
     Matches (Some (entry_client_id entry)) (Some (entry_audience entry))
       (entry_scope entry) k ->
     k = toKey requested) ->
  (nowSeconds now' <=
   Z.min (nowSeconds now + expires_in entry)
         (claims_exp (claims (decodedToken entry))) - adj)%Z ->
  fst (get Mem now' requested adj (snd (CacheManager_set claims_exp Mem now entry w)))
  = Ok (Some (asPartial entry)).
Proof.
  intros requested Hc Ec Ha Ea Hs Ns U T.
  rewrite set_Mem_run. cbn [snd].
  set (key := toKey (mkCacheKey keyPrefix (Some (entry_client_id entry))
                       (Some (entry_audience entry)) (Some (entry_scope entry)))).
  set (w1 := mkWorld _ _ _).
  assert (G : ic_get Mem (toKey requested) w1 = (Ok (Some (List.length (heap w))), w1)).
  { rewrite Mem_get_unfold. change (toKey requested) with key.
    unfold key. rewrite own_key_selected; try assumption.
    - cbn [JS.template]. unfold w1. cbn [cache].
      now rewrite table_get_set_same.
    - intros k Hk Mk. unfold w1 in Hk. cbn [cache] in Hk.
      apply table_keys_set_In in Hk as [->|Hk]; [reflexivity | now apply U].
    - unfold w1. cbn [cache]. apply table_keys_set_In. now left. }
  assert (D : nth_error (heap w1) (List.length (heap w))
              = Some (wrapCacheEntry claims_exp now entry)).
  { unfold w1. cbn [heap]. apply nth_error_alloc. }
  now rewrite (get_fresh _ _ _ _ _ _ _ _ G D T).
Qed.

(** The same on the durable backend, for a JSON codec that gives the
    written entry back. *)
Theorem CacheManager_set_get_LS now now' adj (entry : @CacheEntry IdToken User) w :
  let requested :=
    newCacheKey_default
      (mkCacheKeyData (entry_audience entry) (entry_scope entry)
         (entry_client_id entry)) in
  JSON_stringify (wrapCacheEntry claims_exp now entry) <> "" ->
  JSON_parse (JSON_stringify (wrapCacheEntry claims_exp now entry))
  = ParsedEntry (wrapCacheEntry claims_exp now entry) ->
  JS.includes "::" (entry_client_id entry) = false ->
  JS.endsWithChar ":" (entry_client_id entry) = false ->
  JS.includes "::" (entry_audience entry) = false ->
  JS.endsWithChar ":" (entry_audience entry) = false ->
  JS.includes "::" (entry_scope entry) = false ->
  entry_scope entry <> "" ->
  (forall k, In k (table_keys (localStorage w)) ->
     Matches (Some (entry_client_id entry)) (Some (entry_audience entry))
       (entry_scope entry) k ->
     k = toKey requested) ->
  (nowSeconds now' <=
   Z.min (nowSeconds now + expires_in entry)
         (claims_exp (claims (decodedToken entry))) - adj)%Z ->
  fst (get LS now' requested adj (snd (CacheManager_set claims_exp LS now entry w)))
  = Ok (Some (asPartial entry)).
Proof.
  intros requested Ne P Hc Ec Ha Ea Hs Ns U T.
  rewrite set_LS_run. cbn [snd].
  set (key := toKey (mkCacheKey keyPrefix (Some (entry_client_id entry))
                       (Some (entry_audience entry)) (Some (entry_scope entry)))).
  set (w1 := mkWorld _ _ _).
  assert (G : ic_get LS (toKey requested) w1 =
              (Ok (Some (List.length (heap w1))),
               mkWorld (heap w1 ++ [wrapCacheEntry claims_exp now entry])
                       (localStorage w1) (cache w1))).
  { apply (LS_get_entry _ _ _ key (JSON_stringify (wrapCacheEntry claims_exp now entry)));
      try assumption.
    - change (toKey requested) with key. unfold key.
      apply own_key_selected; try assumption.
      + intros k Hk Mk. unfold w1 in Hk. cbn [localStorage] in Hk.
        apply table_keys_set_In in Hk as [->|Hk]; [reflexivity | now apply U].
      + unfold w1. cbn [localStorage]. apply table_keys_set_In. now left.
    - unfold w1. cbn [localStorage]. apply table_get_set_same. }
  assert (D : nth_error
                (heap (mkWorld (heap w1 ++ [wrapCacheEntry claims_exp now entry])
                         (localStorage w1) (cache w1)))
                (List.length (heap w1))
              = Some (wrapCacheEntry claims_exp now entry)).
  { cbn [heap]. apply nth_error_alloc. }
  now rewrite (get_fresh _ _ _ _ _ _ _ _ G D T).
Qed.

(** *** [clear], then [get] *)

Lemma clear_LS_run w :
  table_wf (localStorage w) ->
  ic_clear LS w =
  (Ok tt,
   mkWorld (heap w)
     (filter (fun kv => negb (JS.startsWith keyPrefix (fst kv))) (localStorage w))
     (cache w)).
Proof.
  intros WF. destruct w as [h ls m]. cbn [localStorage heap cache] in *.
  cbn [ic_clear LocalStorageCache]. unfold LocalStorageCache_clear.
  cbn [localStorage].
  rewrite <- (app_nil_r ls) at 2.
  rewrite (clear_loop_run JSON_parse) by now rewrite app_nil_r.
  now rewrite app_nil_r.
Qed.

(** A key that does not start with the namespace prefix serves no
    request. *)
Lemma matchesb_not_prefixed (cl au : option string) (sc k : string) :
  JS.startsWith keyPrefix k = false -> matchesb cl au sc k = false.
Proof.
  intros H. unfold matchesb.
  destruct (String.eqb_spec (prefix (fromKey k)) keyPrefix) as [E|N]; [|reflexivity].
  pose proof (prefix_fromKey_startsWith k) as P. rewrite E in P. congruence.
Qed.

(** After [CacheManager.clear] every [CacheManager.get] finds nothing
    and writes nothing, on both backends; on the durable one the stored
    keys must be distinct, as they are in a [Storage], and the keys of
    other applications that survive [clear] are never taken for entries. *)
Theorem CacheManager_clear_get c now ck adj w :
  c = LS \/ c = Mem ->
  table_wf (localStorage w) ->
  exists w',
    CacheManager_clear c w = (Ok tt, w') /\
    get c now ck adj w' = (Ok None, w').
Proof.
  intros [-> | ->] WF.
  - eexists. split; [unfold CacheManager_clear; now apply clear_LS_run|].
    apply get_absent. rewrite LS_get_unfold. cbn [localStorage].
    destruct (lookup_toKey ck) as (cl & au & sc & L). rewrite L.
    rewrite find_all_false; [reflexivity|].
    intros k Hk. apply matchesb_not_prefixed.
    unfold table_keys in Hk. apply in_map_iff in Hk as ([k' v] & <- & Hkv).
    apply filter_In in Hkv as [_ Hkv]. now apply negb_true_iff in Hkv.
  - eexists. split; [reflexivity|].
    apply get_absent. reflexivity.
Qed.

(** *** [get] on the ephemeral backend does not throw *)

(** On the ephemeral backend [CacheManager.get] never throws: the key it
    builds always has a scope, so the lookup cannot fail. *)
Theorem CacheManager_get_Mem_no_throw now ck adj w :
  refs_valid w ->
  exists res w', get Mem now ck adj w = (Ok res, w').
Proof.
  intros V.
  destruct (lookup_toKey ck) as (cl & au & sc & L).
  specialize (L (table_keys (cache w))).
  destruct (table_get (JS.template (find (matchesb cl au sc) (table_keys (cache w))))
              (cache w)) as [r|] eqn:T.
  - assert (G : ic_get Mem (toKey ck) w = (Ok (Some r), w)).
    { rewrite Mem_get_unfold, L. now rewrite T. }
    specialize (V _ _ T). apply nth_error_Some in V.
    destruct (nth_error (heap w) r) as [o|] eqn:D; [|congruence].
    destruct (Z.ltb_spec (expiresAt o - adj) (nowSeconds now)) as [E|E].
    + destruct (JS.truthy (p_refresh_token (body o))) eqn:R.
      * rewrite (get_expired_refresh_Mem _ _ _ _ _ _ _ G D E R). now do 2 eexists.
      * rewrite (get_expired_gone_Mem _ _ _ _ _ _ _ G D E R). now do 2 eexists.
    + rewrite (get_fresh _ _ _ _ _ _ _ _ G D E). now do 2 eexists.
  - exists None, w. apply get_absent. rewrite Mem_get_unfold, L. now rewrite T.
Qed.

(** *** Reading an expired entry twice *)

Lemma update_nth_idem {A : Type} (f : A -> A) (n : nat) (l : list A) :
  (forall x, f (f x) = f x) ->
  update_nth n f (update_nth n f l) = update_nth n f l.
Proof.
  intros H. revert n. induction l as [|x l IH]; intros [|n]; cbn; try reflexivity.
  - now rewrite H.
  - now rewrite IH.
Qed.

Lemma find_app_None (g : string -> bool) (l l' : list string) :
  find g l = None -> find g (l ++ l') = find g l'.
Proof.
  induction l as [|x l IH]; simpl; [reflexivity|].
  destruct (g x); [discriminate | exact IH].
Qed.

Lemma table_get_set_kept {V : Type} (t : list (string * V)) (k k' : string) (v : V) :
  table_get k' t = Some v -> table_get k' (table_set k v t) = Some v.
Proof.
  intros H. destruct (String.eqb_spec k' k) as [->|N].
  - apply table_get_set_same.
  - now rewrite table_get_set_other.
Qed.

(** Binding the requested key to the object that the lookup found does
    not change what the lookup finds. *)
Lemma Mem_get_after_set (key : string) (g : string -> bool) r (m : list (string * nat)) :
  table_get (JS.template (find g (table_keys m))) m = Some r ->
  table_get (JS.template (find g (table_keys (table_set key r m))))
    (table_set key r m) = Some r.
Proof.
  intros T. rewrite table_keys_set.
  destruct (existsb (String.eqb key) (table_keys m)).
  - now apply table_get_set_kept.
  - destruct (find g (table_keys m)) as [k|] eqn:F.
    + rewrite (find_app_Some _ _ _ _ F). now apply table_get_set_kept.
    + rewrite (find_app_None _ _ _ F). cbn [find].
      destruct (g key); cbn [JS.template].
      * apply table_get_set_same.
      * now apply table_get_set_kept.
Qed.

(** On the ephemeral backend, reading an expired entry that has a
    refresh token a second time, at the same or a later time, returns the
    same [{ refresh_token }] and changes nothing any more. *)
Theorem CacheManager_get_Mem_again now now' ck adj w r o :
  ic_get Mem (toKey ck) w = (Ok (Some r), w) ->
  nth_error (heap w) r = Some o ->
  (expiresAt o - adj < nowSeconds now)%Z ->
  JS.truthy (p_refresh_token (body o)) = true ->
  (nowSeconds now <= nowSeconds now')%Z ->
  let w1 := snd (get Mem now ck adj w) in
  fst (get Mem now ck adj w) = Ok (Some (refreshOnly (p_refresh_token (body o)))) /\
  get Mem now' ck adj w1 =
  (Ok (Some (refreshOnly (p_refresh_token (body o)))), w1).
Proof.
  intros G D E R T.
  rewrite (get_expired_refresh_Mem _ _ _ _ _ _ _ G D E R). cbn [fst snd].
  split; [reflexivity|].
  set (w1 := mkWorld _ _ _).
  assert (G1 : ic_get Mem (toKey ck) w1 = (Ok (Some r), w1)).
  { rewrite Mem_get_unfold in G |- *.
    destruct (lookup_toKey ck) as (cl & au & sc & L).
    rewrite L in G |- *. injection G as G.
    unfold w1. cbn [cache]. f_equal. f_equal.
    now apply Mem_get_after_set. }
  assert (D1 : nth_error (heap w1) r = Some (remnant o)).
  { unfold w1. cbn [heap]. now rewrite nth_error_update_nth, D. }
  assert (E1 : (expiresAt (remnant o) - adj < nowSeconds now')%Z).
  { cbn [remnant with_body expiresAt]. lia. }
  rewrite (get_expired_refresh_Mem _ _ _ _ _ _ _ G1 D1 E1 R).
  f_equal. unfold w1. cbn [heap localStorage cache remnant with_body body p_refresh_token refreshOnly].
  rewrite update_nth_idem by reflexivity. now rewrite table_set_set.
Qed.

(** *** [get] writes for expired entries only *)

(** Whenever [CacheManager.get] leaves [localStorage] (durable backend)
    or the objects and the table of the ephemeral backend other than it
    found them, it has read an expired entry. *)
Theorem CacheManager_get_writes_only_expired now ck adj w :
  (localStorage (snd (get LS now ck adj w)) <> localStorage w ->
   exists k text o,
     table_get k (localStorage w) = Some text /\
     JSON_parse text = ParsedEntry o /\
     (expiresAt o - adj < nowSeconds now)%Z) /\
  (snd (get Mem now ck adj w) <> w ->
   exists k r o,
     table_get k (cache w) = Some r /\
     nth_error (heap w) r = Some o /\
     (expiresAt o - adj < nowSeconds now)%Z).
Proof.
  split.
  - intros N.
    destruct (LS_get_cases JSON_stringify JSON_parse (toKey ck) w)
      as [[e G] | [G | (k & text & o & S & T & P & G)]].
    + rewrite (get_throws _ _ _ _ _ _ _ G) in N. now contradiction N.
    + rewrite (get_absent _ _ _ _ _ _ G) in N. now contradiction N.
    + destruct (Z.ltb_spec (expiresAt o - adj) (nowSeconds now)) as [E|E].
      * now exists k, text, o.
      * assert (D : nth_error
                      (heap (mkWorld (heap w ++ [o]) (localStorage w) (cache w)))
                      (List.length (heap w)) = Some o) by apply nth_error_alloc.
        rewrite (get_fresh _ _ _ _ _ _ _ _ G D E) in N. now contradiction N.
  - intros N.
    destruct (ic_get Mem (toKey ck) w) as [[[r|]|e] w1] eqn:G.
    + assert (W : w1 = w).
      { rewrite Mem_get_unfold in G. destruct (findExistingCacheKey _ _); congruence. }
      subst w1.
      assert (K : exists k, table_get k (cache w) = Some r).
      { rewrite Mem_get_unfold in G.
        destruct (findExistingCacheKey _ _) as [sel|]; [|discriminate].
        exists (JS.template sel). congruence. }
      destruct K as [k K].
      destruct (nth_error (heap w) r) as [o|] eqn:D.
      * destruct (Z.ltb_spec (expiresAt o - adj) (nowSeconds now)) as [E|E].
        -- now exists k, r, o.
        -- rewrite (get_fresh _ _ _ _ _ _ _ _ G D E) in N. now contradiction N.
      * exfalso. apply N. unfold CacheManager_get, bind. rewrite G.
        unfold deref. now rewrite D.
    + rewrite (get_absent _ _ _ _ _ _ G) in N.
      rewrite Mem_get_unfold in G. destruct (findExistingCacheKey _ _); [|discriminate].
      injection G as _ <-. now contradiction N.
    + rewrite (get_throws _ _ _ _ _ _ _ G) in N.
      rewrite Mem_get_unfold in G. destruct (findExistingCacheKey _ _); [discriminate|].
      injection G as _ <-. now contradiction N.
Qed.

Lemma find_after_set {V : Type} (g : string -> bool) (key k : string) (v : V)
    (t : list (string * V)) :
  find g (table_keys t) = Some k ->
  find g (table_keys (table_set key v t)) = Some k.
Proof.
  intros F. rewrite table_keys_set.
  destruct (existsb (String.eqb key) (table_keys t)); [exact F|].
  now apply find_app_Some.
Qed.

(** The same on the durable backend, for a JSON codec that gives the
    remnant back: the second read returns the same [{ refresh_token }]
    and leaves [localStorage] as the first read left it. *)
Theorem CacheManager_get_LS_again now now' ck adj w (k text : string) o :
  findExistingCacheKey (fromKey (toKey ck)) (table_keys (localStorage w))
  = Ok (Some k) ->
  table_get k (localStorage w) = Some text ->
  text <> "" ->
  JSON_parse text = ParsedEntry o ->
  (expiresAt o - adj < nowSeconds now)%Z ->
  JS.truthy (p_refresh_token (body o)) = true ->
  (nowSeconds now <= nowSeconds now')%Z ->
  JSON_stringify (remnant o) <> "" ->
  JSON_parse (JSON_stringify (remnant o)) = ParsedEntry (remnant o) ->
  let w1 := snd (get LS now ck adj w) in
  fst (get LS now ck adj w) = Ok (Some (refreshOnly (p_refresh_token (body o)))) /\
  fst (get LS now' ck adj w1) = Ok (Some (refreshOnly (p_refresh_token (body o)))) /\
  localStorage (snd (get LS now' ck adj w1)) = localStorage w1.
Proof.
  intros S T Ne P E R Tm Ne' P'.
  pose proof (LS_get_entry JSON_stringify JSON_parse _ _ _ _ _ S T Ne P) as G.
  assert (D : nth_error (heap (mkWorld (heap w ++ [o]) (localStorage w) (cache w)))
                (List.length (heap w)) = Some o) by apply nth_error_alloc.
  rewrite (get_expired_refresh_LS _ _ _ _ _ _ _ _ _ G D E R). cbn [fst snd].
  split; [reflexivity|].
  set (w1 := mkWorld _ _ _).
  assert (S1 : findExistingCacheKey (fromKey (toKey ck)) (table_keys (localStorage w1))
               = Ok (Some k)).
  { destruct (lookup_toKey ck) as (cl & au & sc & L).
    rewrite L in S |- *. injection S as S. f_equal.
    unfold w1. cbn [localStorage]. now apply find_after_set. }
  assert (X : exists text1 o1,
             table_get k (localStorage w1) = Some text1 /\ text1 <> "" /\
             JSON_parse text1 = ParsedEntry o1 /\ remnant o1 = remnant o /\
             expiresAt o1 = expiresAt o /\
             p_refresh_token (body o1) = p_refresh_token (body o)).
  { unfold w1. cbn [localStorage].
    destruct (String.eqb_spec k (toKey ck)) as [->|N].
    - exists (JSON_stringify (remnant o)), (remnant o).
      rewrite table_get_set_same. now repeat split.
    - exists text, o. rewrite table_get_set_other by exact N. now repeat split. }
  destruct X as (text1 & o1 & T1 & Ne1 & P1 & Rm & Ex & Rt).
  pose proof (LS_get_entry JSON_stringify JSON_parse _ _ _ _ _ S1 T1 Ne1 P1) as G1.
  assert (D1 : nth_error
                 (heap (mkWorld (heap w1 ++ [o1]) (localStorage w1) (cache w1)))
                 (List.length (heap w1)) = Some o1) by apply nth_error_alloc.
  assert (E1 : (expiresAt o1 - adj < nowSeconds now')%Z) by (rewrite Ex; lia).
  assert (R1 : JS.truthy (p_refresh_token (body o1)) = true) by now rewrite Rt.
  rewrite (get_expired_refresh_LS _ _ _ _ _ _ _ _ _ G1 D1 E1 R1). cbn [fst snd localStorage].
  rewrite Rm. split.
  - reflexivity.
  - unfold w1. cbn [localStorage]. apply table_set_set.
Qed.

(** *** What every operation keeps *)

Lemma length_update_nth {A : Type} (f : A -> A) (n : nat) (l : list A) :
  List.length (update_nth n f l) = List.length l.
Proof.
  revert n. induction l as [|x l IH]; intros [|n]; cbn; try reflexivity.
  now rewrite IH.
Qed.

Lemma table_wf_filter_keys {V : Type} (g : string -> bool) (t : list (string * V)) :
  table_wf t -> table_wf (filter (fun kv => g (fst kv)) t).
Proof.
  unfold table_wf, table_keys. intros WF.
  induction t as [|[k v] t IH]; cbn in *; [constructor|].
  inversion WF as [|? ? Hn Hd]; subst.
  destruct (g k); cbn.
  - constructor; [|now apply IH].
    intros I. apply Hn. apply in_map_iff in I as ([k' v'] & <- & Hkv).
    apply filter_In in Hkv as [Hkv _]. apply in_map_iff. now exists (k', v').
  - now apply IH.
Qed.

Lemma world_ok_grow w o (ls : list (string * string)) :
  world_ok w -> table_wf ls ->
  world_ok (mkWorld (heap w ++ [o]) ls (cache w)).
Proof.
  intros (V & _ & C) L. repeat split; try assumption.
  intros k r H. cbn [heap cache] in *. rewrite length_app. specialize (V k r H).
  cbn. lia.
Qed.

Lemma world_ok_stores w (h : list wrapped) (ls : list (string * string))
    (m : list (string * nat)) :
  List.length h = List.length (heap w) ->
  (forall k r, table_get k m = Some r -> r < List.length (heap w)) ->
  table_wf ls -> table_wf m ->
  world_ok (mkWorld h ls m).
Proof.
  intros H V L C. repeat split; try assumption.
  intros k r T. cbn [heap cache] in *. rewrite H. now apply (V k).
Qed.

Lemma table_get_remove_Some {V : Type} (t : list (string * V)) (k k' : string) (v : V) :
  table_get k' (table_remove k t) = Some v -> table_get k' t = Some v.
Proof.
  destruct (String.eqb_spec k' k) as [->|N].
  - now rewrite table_get_remove_same.
  - now rewrite table_get_remove_other.
Qed.

Lemma table_get_set_Some {V : Type} (t : list (string * V)) (k k' : string) (v v' : V) :
  table_get k' (table_set k v t) = Some v' -> v' = v \/ table_get k' t = Some v'.
Proof.
  destruct (String.eqb_spec k' k) as [->|N].
  - rewrite table_get_set_same. intros [= ->]. now left.
  - rewrite table_get_set_other by exact N. now right.
Qed.

Lemma world_ok_get c now ck adj w :
  c = LS \/ c = Mem -> world_ok w -> world_ok (snd (get c now ck adj w)).
Proof.
  intros [-> | ->] OK.
  - destruct (LS_get_cases JSON_stringify JSON_parse (toKey ck) w)
      as [[e G] | [G | (k & text & o & S & T & P & G)]].
    + now rewrite (get_throws _ _ _ _ _ _ _ G).
    + now rewrite (get_absent _ _ _ _ _ _ G).
    + assert (D : nth_error
                    (heap (mkWorld (heap w ++ [o]) (localStorage w) (cache w)))
                    (List.length (heap w)) = Some o) by apply nth_error_alloc.
      pose proof (world_ok_grow w o (localStorage w) OK (proj1 (proj2 OK))) as OK1.
      destruct (Z.ltb_spec (expiresAt o - adj) (nowSeconds now)) as [E|E].
      * destruct (JS.truthy (p_refresh_token (body o))) eqn:R.
        -- rewrite (get_expired_refresh_LS _ _ _ _ _ _ _ _ _ G D E R). cbn [snd].
           apply (world_ok_stores (mkWorld (heap w ++ [o]) (localStorage w) (cache w)));
             cbn [heap localStorage cache].
           ++ apply length_update_nth.
           ++ apply OK1.
           ++ apply table_wf_set, OK.
           ++ apply OK.
        -- rewrite (get_expired_gone_LS _ _ _ _ _ _ _ _ _ G D E R). cbn [snd].
           apply (world_ok_stores (mkWorld (heap w ++ [o]) (localStorage w) (cache w)));
             cbn [heap localStorage cache].
           ++ reflexivity.
           ++ apply OK1.
           ++ apply table_wf_remove, OK.
           ++ apply OK.
      * now rewrite (get_fresh _ _ _ _ _ _ _ _ G D E).
  - destruct (ic_get Mem (toKey ck) w) as [[[r|]|e] w1] eqn:G.
    + assert (W : w1 = w).
      { rewrite Mem_get_unfold in G. destruct (findExistingCacheKey _ _); congruence. }
      subst w1.
      destruct (nth_error (heap w) r) as [o|] eqn:D.
      * assert (Vr : r < List.length (heap w)).
        { apply nth_error_Some. congruence. }
        destruct (Z.ltb_spec (expiresAt o - adj) (nowSeconds now)) as [E|E].
        -- destruct (JS.truthy (p_refresh_token (body o))) eqn:R.
           ++ rewrite (get_expired_refresh_Mem _ _ _ _ _ _ _ G D E R). cbn [snd].
              apply (world_ok_stores w).
              ** apply length_update_nth.
              ** intros k r' H. apply table_get_set_Some in H as [->|H];
                   [exact Vr | now apply (proj1 OK k)].
              ** apply OK.
              ** apply table_wf_set, OK.
           ++ rewrite (get_expired_gone_Mem _ _ _ _ _ _ _ G D E R). cbn [snd].
              apply (world_ok_stores w).
              ** reflexivity.
              ** intros k r' H. apply table_get_remove_Some in H.
                 now apply (proj1 OK k).
              ** apply OK.
              ** apply table_wf_remove, OK.
        -- now rewrite (get_fresh _ _ _ _ _ _ _ _ G D E).
      * unfold CacheManager_get, bind. rewrite G. unfold deref. now rewrite D.
    + rewrite (get_absent _ _ _ _ _ _ G).
      rewrite Mem_get_unfold in G. destruct (findExistingCacheKey _ _); [|discriminate].
      now injection G as _ <-.
    + rewrite (get_throws _ _ _ _ _ _ _ G).
      rewrite Mem_get_unfold in G. destruct (findExistingCacheKey _ _); [discriminate|].
      now injection G as _ <-.
Qed.

(** The empty stores are in order, and [set], [get] and [clear] of the
    cache manager keep the stores in order on both backends: the keys of
    each store stay distinct and every reference of the ephemeral store
    stays the index of an object.  So what [clear] and the ephemeral
    [get] need holds in every state the cache manager reaches. *)
Theorem world_ok_kept c :
  c = LS \/ c = Mem ->
  world_ok (@empty_world IdToken User) /\
  (forall now entry w,
     world_ok w -> world_ok (snd (CacheManager_set claims_exp c now entry w))) /\
  (forall now ck adj w, world_ok w -> world_ok (snd (get c now ck adj w))) /\
  (forall w, world_ok w -> world_ok (snd (CacheManager_clear c w))).
Proof.
  intros Hc. split; [|split; [|split]].
  - repeat split; try constructor. intros k r H. discriminate H.
  - intros now entry w OK. destruct Hc as [-> | ->].
    + rewrite set_LS_run. cbn [snd]. apply world_ok_grow; [exact OK|].
      apply table_wf_set, OK.
    + rewrite set_Mem_run. cbn [snd]. repeat split; cbn [heap localStorage cache].
      * intros k r H. cbn [heap cache] in *. rewrite length_app. cbn.
        apply table_get_set_Some in H as [->|H]; [lia|].
        pose proof (proj1 OK k r H). lia.
      * apply OK.
      * apply table_wf_set, OK.
  - intros now ck adj w OK. now apply world_ok_get.
  - intros w OK. destruct Hc as [-> | ->].
    + unfold CacheManager_clear. rewrite clear_LS_run by apply OK. cbn [snd].
      apply (world_ok_stores w); cbn; try apply OK; try reflexivity.
      apply (table_wf_filter_keys (fun k => negb (JS.startsWith keyPrefix k))), OK.
    + cbn. repeat split; try constructor; try apply OK.
      intros k r H. discriminate H.
Qed.

End MoreCacheProperties.

(** ** [remove] on the backends *)

Lemma not_In_removed (k : string) (keys : list string) :
  ~ In k (filter (fun k' => negb (String.eqb k k')) keys).
Proof.
  intros H. apply filter_In in H as [_ H]. now rewrite String.eqb_refl in H.
Qed.

(** After [remove(k)] on either backend the binding of [k] is gone, the
    other bindings are as they were, and no lookup selects [k]. *)
Theorem ic_remove_forgets {IdToken User : Type}
    (JSON_stringify : @WrappedCacheEntry IdToken User -> string)
    (JSON_parse : string -> @Parsed IdToken User)
    (k : string) (w : @World IdToken User) :
  (exists w',
     ic_remove (LocalStorageCache JSON_stringify JSON_parse) k w = (Ok tt, w') /\
     heap w' = heap w /\ cache w' = cache w /\
     table_get k (localStorage w') = None /\
     (forall k', k' <> k ->
        table_get k' (localStorage w') = table_get k' (localStorage w)) /\
     forall requested,
       findExistingCacheKey requested (table_keys (localStorage w')) <> Ok (Some k)) /\
  (exists w',
     ic_remove InMemoryCache k w = (Ok tt, w') /\
     heap w' = heap w /\ localStorage w' = localStorage w /\
     table_get k (cache w') = None /\
     (forall k', k' <> k -> table_get k' (cache w') = table_get k' (cache w)) /\
     forall requested,
       findExistingCacheKey requested (table_keys (cache w')) <> Ok (Some k)).
Proof.
  split; eexists; (split; [reflexivity|]); cbn [heap localStorage cache];
    (split; [reflexivity|]); (split; [reflexivity|]);
    (split; [apply table_get_remove_same|]);
    (split; [intros k' N; now apply table_get_remove_other|]);
    intros requested H; apply findExistingCacheKey_Some in H as [H _];
    rewrite table_keys_remove in H; now apply not_In_removed in H.
Qed.

(** ** Keys do not collide *)

(** Two triples of clean components (no delimiter inside, client id
    and audience not ending in a colon) that get the same storage key
    are the same triple. *)
Theorem toKey_injective (c1 a1 s1 c2 a2 s2 : string) :
  JS.includes "::" c1 = false -> JS.endsWithChar ":" c1 = false ->
  JS.includes "::" a1 = false -> JS.endsWithChar ":" a1 = false ->
  JS.includes "::" s1 = false ->
  JS.includes "::" c2 = false -> JS.endsWithChar ":" c2 = false ->
  JS.includes "::" a2 = false -> JS.endsWithChar ":" a2 = false ->
  JS.includes "::" s2 = false ->
  toKey (newCacheKey_default (mkCacheKeyData a1 s1 c1))
  = toKey (newCacheKey_default (mkCacheKeyData a2 s2 c2)) ->
  c1 = c2 /\ a1 = a2 /\ s1 = s2.
Proof.
  intros Hc1 Ec1 Ha1 Ea1 Hs1 Hc2 Ec2 Ha2 Ea2 Hs2 E.
  apply (f_equal fromKey) in E.
  unfold newCacheKey_default, newCacheKey in E.
  cbn [data_client_id data_audience data_scope] in E.
  rewrite !fromKey_own_key in E by assumption.
  now injection E.
Qed.

Lemma toKey_injective_witness :
  "C1" = "C1" /\ "A1" = "A1" /\ "read" = "read".
Proof.
  apply (toKey_injective "C1" "A1" "read" "C1" "A1" "read"); reflexivity.
Defined.

(** ** The further properties on the concrete instance *)

Lemma CacheManager_set_get_Mem_witness :
  fst (CacheManager_get Example.Mem 100000 Example.own_key 0 Example.after_set_Mem)
  = Ok (Some (asPartial Example.entry)).
Proof.
  apply (CacheManager_set_get_Mem Example.exp 40000 100000 0 Example.entry empty_world);
    try reflexivity; try discriminate; try (intros k []);
    try (vm_compute; discriminate).
Defined.

Lemma CacheManager_set_get_LS_witness :
  fst (CacheManager_get Example.LS 100000 Example.own_key 0 Example.after_set_LS)
  = Ok (Some (asPartial Example.entry)).
Proof.
  apply (CacheManager_set_get_LS Example.exp Example.stringify Example.parse
           40000 100000 0 Example.entry empty_world);
    try reflexivity; try discriminate; try (intros k []);
    try (vm_compute; discriminate).
Defined.

Lemma CacheManager_clear_get_witness :
  exists w',
    CacheManager_clear Example.LS Example.after_set_LS = (Ok tt, w') /\
    CacheManager_get Example.LS 0 Example.own_key 0 w' = (Ok None, w').
Proof.
  apply (CacheManager_clear_get Example.stringify Example.parse).
  - now left.
  - unfold table_wf. cbn. repeat constructor. intros [].
Defined.

Lemma CacheManager_get_Mem_no_throw_witness :
  exists res w',
    CacheManager_get Example.Mem 101000 Example.read_key 0 Example.after_set_Mem
    = (Ok res, w').
Proof.
  apply (CacheManager_get_Mem_no_throw 101000%Z Example.read_key 0%Z
           Example.after_set_Mem).
  unfold refs_valid. intros k r. cbn.
  destruct (String.eqb k "@@auth0spajs@@::C1::A1::read write"); [|discriminate].
  intros [= <-]. lia.
Defined.

Lemma CacheManager_get_Mem_again_witness :
  let w1 :=
    snd (CacheManager_get Example.Mem 101000 Example.read_key 0 Example.after_set_Mem) in
  CacheManager_get Example.Mem 102000 Example.read_key 0 w1
  = (Ok (Some (refreshOnly (Some "rt"))), w1).
Proof.
  apply (proj2 (CacheManager_get_Mem_again 101000%Z 102000%Z Example.read_key 0%Z
                  Example.after_set_Mem 0%nat Example.stored
                  eq_refl eq_refl eq_refl eq_refl
                  ltac:(vm_compute; discriminate))).
Defined.

Lemma CacheManager_get_LS_again_witness :
  let w1 :=
    snd (CacheManager_get Example.LS 101000 Example.own_key 0 Example.after_set_LS) in
  fst (CacheManager_get Example.LS 102000 Example.own_key 0 w1)
  = Ok (Some (refreshOnly (Some "rt"))) /\
  localStorage (snd (CacheManager_get Example.LS 102000 Example.own_key 0 w1))
  = localStorage w1.
Proof.
  apply (proj2 (CacheManager_get_LS_again Example.stringify Example.parse
                  101000 102000 Example.own_key 0 Example.after_set_LS
                  "@@auth0spajs@@::C1::A1::read write" "{entry}" Example.stored
                  eq_refl eq_refl ltac:(discriminate) eq_refl eq_refl eq_refl
                  ltac:(vm_compute; discriminate) ltac:(discriminate) eq_refl)).
Defined.

Lemma CacheManager_get_writes_only_expired_witness :
  exists k text o,
    table_get k (localStorage Example.after_set_LS) = Some text /\
    Example.parse text = ParsedEntry o /\
    (expiresAt o - 0 < nowSeconds 101000)%Z.
Proof.
  apply (proj1 (CacheManager_get_writes_only_expired Example.stringify Example.parse
                  101000 Example.read_key 0 Example.after_set_LS)).
  vm_compute. discriminate.
Defined.

Lemma world_ok_kept_witness :
  world_ok (snd (CacheManager_get Example.Mem 101000 Example.read_key 0
                   (snd (CacheManager_set Example.exp Example.Mem 40000
                           Example.entry empty_world)))).
Proof.
  destruct (world_ok_kept Example.exp Example.stringify Example.parse Example.Mem
              (or_intror eq_refl)) as (E & S & G & _).
  apply G, S, E.
Defined.

Lemma get_LS_expired_same_key_witness :
  table_get (toKey Example.own_key)
    (localStorage
       (snd (CacheManager_get Example.LS 101000 Example.own_key 0
               Example.after_set_LS)))
  = Some "{remnant}".
Proof.
  apply (proj1 (get_LS_expired_same_key Example.stringify Example.parse
                  101000 Example.own_key 0 Example.after_set_LS "{entry}"
                  Example.stored eq_refl eq_refl ltac:(discriminate) eq_refl eq_refl)).
Defined.

Lemma get_Mem_expired_other_key_witness :
  let w' :=
    snd (CacheManager_get Example.Mem 101000 Example.read_key 0 Example.after_set_Mem) in
  table_get "@@auth0spajs@@::C1::A1::read write" (cache w') = Some 0 /\
  table_get (toKey Example.read_key) (cache w') = Some 0 /\
  nth_error (heap w') 0 = Some (remnant Example.stored).
Proof.
  destruct (get_Mem_expired_other_key 101000%Z Example.read_key 0%Z
              Example.after_set_Mem
              "@@auth0spajs@@::C1::A1::read write" 0%nat Example.stored
              eq_refl ltac:(discriminate) eq_refl eq_refl eq_refl)
    as (K & R & _).
  split; [exact K | exact (R eq_refl)].
Defined.
